(** * Authenticated chat proxy: a shallow embedding of [src/server.ts]

    The development follows the request path of [POST /chat]: the JSON
    body parser, [validateApiKey] (bearer-token middleware over the key
    store), the [chatRequestSchema] validation, the outbound call to the
    inference backend, the forwarding of status and allow-listed headers,
    and the [readStream] relay of the backend body under write
    backpressure.

    JavaScript objects that the handler mutates ([res], the body reader, the
    key table) are explicit state; what the environment decides (the key
    store failing, the backend answering, the socket accepting a write) is
    an explicit input of the model. *)

From Stdlib Require Import Strings.Byte Strings.Ascii.
From stdpp Require Import gmap strings list pretty.

Set Warnings "-register-all,-clear-no-such-hyp".

Open Scope string_scope.
Open Scope Z_scope.
Open Scope list_scope.

(** ** JSON values *)

(** A parsed JSON value, as [express.json()] leaves it in [req.body] and as
    [JSON.stringify] receives it. Object fields are kept in insertion order.
    A JavaScript [undefined] (an absent property, an absent body) is the
    [None] of [option json]. *)
Inductive json : Type :=
| JNull
| JBool (b : bool)
| JNum (n : Z)
| JStr (s : string)
| JArr (items : list json)
| JObj (fields : list (string * json)).

(** [input[key]] on an object literal: the value of the property, or
    [undefined]. *)
Fixpoint getField (key : string) (fields : list (string * json)) : option json :=
  match fields with
  | [] => None
  | (k, v) :: rest => if String.eqb k key then Some v else getField key rest
  end.

(** ** The response object [res] *)

(** A [Uint8Array] chunk of the backend body. *)
Definition Chunk : Type := list byte.

(** JavaScript truthiness of an optional string. *)
Definition truthy (v : option string) : bool :=
  match v with
  | None | Some EmptyString => false
  | Some _ => true
  end.

(** What the installed Express decides inside [res.json] and [res.send]:
    the value [res.set('Content-Type', v)] stores for [v], a content type
    with its charset parameter set to utf-8, the number of bytes of
    [JSON.stringify(obj)], and the entity tag of that text. *)
Record Express : Type := mkExpress {
  contentType : string → string;
  setCharset : string → string;
  byteLength : json → nat;
  etag : json → string;
}.

(** The part of an Express response the handler touches. Header names are
    case-insensitive in Node; the table is keyed by the lower-cased name. *)
Record Response : Type := mkResponse {
  express : Express;
  statusCode : Z;
  resHeaders : gmap string string;
  headersSent : bool;
  sent : list Chunk;          (* chunks given to [res.write], oldest first *)
  jsonBody : option json;     (* body given to [res.json] *)
  writableEnded : bool;
}.

Definition lowerAscii (a : ascii) : ascii :=
  let n := nat_of_ascii a in
  if ((65 <=? n) && (n <=? 90))%nat then ascii_of_nat (n + 32) else a.

Fixpoint lowerName (s : string) : string :=
  match s with
  | EmptyString => EmptyString
  | String a rest => String (lowerAscii a) (lowerName rest)
  end.

(** [res.status(code)] *)
Definition status (code : Z) (res : Response) : Response :=
  mkResponse (express res) code (resHeaders res) (headersSent res) (sent res)
             (jsonBody res) (writableEnded res).

(** [res.setHeader(name, value)] *)
Definition setHeader (name value : string) (res : Response) : Response :=
  mkResponse (express res) (statusCode res)
             (<[lowerName name := value]> (resHeaders res))
             (headersSent res) (sent res) (jsonBody res) (writableEnded res).

(** [res.end()]: flushes the head if it was not yet sent and closes the
    response. *)
Definition end_ (res : Response) : Response :=
  mkResponse (express res) (statusCode res) (resHeaders res) true (sent res)
             (jsonBody res) true.

(** [res.write(value)] when it does not throw: the head is flushed with the
    first write and the chunk is queued after the earlier ones. *)
Definition write (value : Chunk) (res : Response) : Response :=
  mkResponse (express res) (statusCode res) (resHeaders res) true
             (sent res ++ [value]) (jsonBody res) (writableEnded res).

(** The headers [res.json(obj)] leaves: a JSON content type unless one is
    set, then, in [res.send], the charset of the content type set to utf-8,
    the content length, and an entity tag unless one is set. *)
Definition jsonHeaders (obj : json) (res : Response) : gmap string string :=
  let x := express res in
  let hs := resHeaders res in
  let hs := if truthy (hs !! "content-type") then hs
            else <["content-type" := contentType x "application/json"]> hs in
  let hs := match hs !! "content-type" with
            | Some type =>
                <["content-type" := contentType x (setCharset x type)]> hs
            | None => hs
            end in
  let generateETag := negb (truthy (hs !! "etag")) in
  let hs := <["content-length" := pretty (byteLength x obj)]> hs in
  if generateETag then <["etag" := etag x obj]> hs else hs.

(** [res.json(obj)] on a [POST] (never fresh): the headers above, the body,
    and the response ended. With status 204 or 304 the content headers and
    the body are dropped, with 205 the body is. *)
Definition json_ (obj : json) (res : Response) : Response :=
  let hs := jsonHeaders obj res in
  if (statusCode res =? 204) || (statusCode res =? 304) then
    mkResponse (express res) (statusCode res)
               (base.delete "transfer-encoding"
                  (base.delete "content-length" (base.delete "content-type" hs)))
               true (sent res) None true
  else if statusCode res =? 205 then
    mkResponse (express res) (statusCode res)
               (base.delete "transfer-encoding" (<["content-length" := "0"]> hs))
               true (sent res) None true
  else mkResponse (express res) (statusCode res) hs true (sent res) (Some obj) true.

(** The bytes of the body as the client receives them from [res.write]. *)
Definition bodyBytes (res : Response) : list byte := concat (sent res).

(** A response nothing was sent on yet. *)
Definition untouched (res : Response) : bool :=
  negb (headersSent res) && negb (writableEnded res)
  && match sent res with [] => true | _ => false end
  && match jsonBody res with None => true | Some _ => false end.

(** ** The stream relay [readStream] *)

(** What [reader.read()] yields over the life of the backend body: chunks,
    then the stream closes ([{ done: true }]), fails (the promise rejects,
    also when the fetch is aborted), or never settles. *)
Inductive ReaderScript : Type :=
| Closed
| Errored
| Stalled
| Produce (value : Chunk) (rest : ReaderScript).

(** What [res.write(value)] does: returns [true]; returns [false], after
    which ['drain'] fires or never does; or throws. *)
Inductive WriteResult : Type :=
| Flushed
| Buffered (drains : bool)
| WriteThrows.

(** The client connection: the result of the n-th [res.write] of a relay. *)
Definition Socket : Type := nat → WriteResult.

(** The observable steps of the relay, in program order. *)
Inductive Event : Type :=
| EvRead (value : Chunk)
| EvReadDone
| EvReadThrow
| EvReadPending
| EvWrite (value : Chunk) (ok : bool)
| EvWriteThrow (value : Chunk)
| EvAwaitDrain
| EvDrain
| EvEnd
| EvErrorBody
| EvReleaseLock.

(** The state a relay works on: the response, the lock that
    [response.body.getReader()] took on the body, and the steps so far. *)
Record Relay : Type := mkRelay {
  res : Response;
  lockHeld : bool;
  trace : list Event;
}.

Definition emit (e : Event) (s : Relay) : Relay :=
  mkRelay (res s) (lockHeld s) (trace s ++ [e]).

Definition onRes (f : Response → Response) (s : Relay) : Relay :=
  mkRelay (f (res s)) (lockHeld s) (trace s).

Definition releaseLock (s : Relay) : Relay :=
  emit EvReleaseLock (mkRelay (res s) false (trace s)).

(** How the [while (true)] loop is left. *)
Inductive LoopExit : Type :=
| Broke      (* [if (done) break] *)
| Threw      (* [reader.read()] rejected or [res.write] threw *)
| Hung.      (* an awaited promise never settles *)

(** The loop body of [readStream], [n] writes having been made. *)
Fixpoint relayLoop (sock : Socket) (n : nat) (src : ReaderScript) (s : Relay)
  : LoopExit * Relay :=
  match src with
  | Closed => (Broke, emit EvReadDone s)
  | Errored => (Threw, emit EvReadThrow s)
  | Stalled => (Hung, emit EvReadPending s)
  | Produce value rest =>
      let s := emit (EvRead value) s in
      match sock n with
      | WriteThrows => (Threw, emit (EvWriteThrow value) s)
      | Flushed =>
          relayLoop sock (S n) rest (emit (EvWrite value true) (onRes (write value) s))
      | Buffered drains =>
          let s := emit EvAwaitDrain
                     (emit (EvWrite value false) (onRes (write value) s)) in
          if drains then relayLoop sock (S n) rest (emit EvDrain s)
          else (Hung, s)
      end
  end.

(** An [async] call: it settles with a final state, or stays pending in the
    state it reached. *)
Inductive Async (A : Type) : Type :=
| Settled (a : A)
| Pending (a : A).
Arguments Settled {A} a.
Arguments Pending {A} a.

Definition stateOf {A} (p : Async A) : A :=
  match p with Settled a | Pending a => a end.

Definition isSettled {A} (p : Async A) : bool :=
  match p with Settled _ => true | Pending _ => false end.

Definition streamErrorBody : json :=
  JObj [("error", JStr "Error streaming response")].

(** [readStream]: [try { loop; res.end() } catch { 502 unless the head is
    out; res.end() } finally { reader.releaseLock() }]. *)
Definition readStream (sock : Socket) (src : ReaderScript) (s : Relay)
  : Async Relay :=
  match relayLoop sock 0 src s with
  | (Broke, s) => Settled (releaseLock (emit EvEnd (onRes end_ s)))
  | (Threw, s) =>
      let s := if headersSent (res s) then s
               else emit EvErrorBody
                      (onRes (λ r, json_ streamErrorBody (status 502 r)) s) in
      Settled (releaseLock (emit EvEnd (onRes end_ s)))
  | (Hung, s) => Pending s
  end.

(** ** Errors and fallible calls *)

(** A thrown JavaScript value, as far as the handler inspects it:
    [error instanceof Error] and [error.name]. *)
Record JsError : Type := mkJsError {
  instanceofError : bool;
  errName : string;
}.

Inductive Try (A : Type) : Type :=
| Ok (a : A)
| Throw (e : JsError).
Arguments Ok {A} a.
Arguments Throw {A} e.

(** ** The key store *)

(** A row of the [apiKey] table ([manageKeys.ts] shows its columns).
    Timestamps are milliseconds. *)
Record ApiKey : Type := mkApiKey {
  id : Z;
  key : string;
  description : option string;
  isActive : bool;
  createdAt : Z;
  lastUsedAt : option Z;
}.

(** The Prisma client: the table and, as decided by the environment,
    whether the next [findUnique] or [update] fails (connectivity). *)
Record Prisma : Type := mkPrisma {
  apiKeys : list ApiKey;
  findUniqueFails : bool;
  updateFails : bool;
}.

Definition storeError : JsError := mkJsError true "PrismaClientKnownRequestError".

(** [prisma.apiKey.findUnique({ where: { key } })] *)
Definition findUnique (k : string) (db : Prisma) : Try (option ApiKey) :=
  if findUniqueFails db then Throw storeError
  else Ok (List.find (λ r, String.eqb (key r) k) (apiKeys db)).

Definition touch (now : Z) (r : ApiKey) : ApiKey :=
  mkApiKey (id r) (key r) (description r) (isActive r) (createdAt r) (Some now).

(** [prisma.apiKey.update({ where: { id }, data: { lastUsedAt } })]: throws
    when the store fails or no row has that id. *)
Definition update (rowId : Z) (now : Z) (db : Prisma) : Try Prisma :=
  if updateFails db then Throw storeError
  else if existsb (λ r, id r =? rowId) (apiKeys db) then
    Ok (mkPrisma
          (map (λ r, if id r =? rowId then touch now r else r) (apiKeys db))
          (findUniqueFails db) (updateFails db))
  else Throw storeError.

(** ** The middleware [validateApiKey] *)

(** [s.substring(n)] *)
Fixpoint substringFrom (n : nat) (s : string) : string :=
  match n, s with
  | O, _ => s
  | S _, EmptyString => EmptyString
  | S m, String _ rest => substringFrom m rest
  end.

(** [s.startsWith(p)] *)
Fixpoint startsWith (p s : string) : bool :=
  match p, s with
  | EmptyString, _ => true
  | String a p', String b s' => Ascii.eqb a b && startsWith p' s'
  | String _ _, EmptyString => false
  end.

Definition errorBody (msg : string) : json := JObj [("error", JStr msg)].

(** The middleware either calls [next()] or answers itself. *)
Inductive AuthResult : Type :=
| Next (db : Prisma)
| Replied (db : Prisma) (res : Response).

Definition validateApiKey (now : Z) (db : Prisma)
    (authorization : option string) (res : Response) : AuthResult :=
  match authorization with
  | Some authHeader =>
      if negb (truthy authorization) || negb (startsWith "Bearer " authHeader)
      then Replied db (json_ (errorBody "Missing or invalid API key") (status 401 res))
      else
        let apiKey := substringFrom 7 authHeader in
        match findUnique apiKey db with
        | Ok found =>
            match found with
            | Some k =>
                if negb (isActive k)
                then Replied db (json_ (errorBody "Invalid or inactive API key")
                                       (status 401 res))
                else
                  match update (id k) now db with
                  | Ok db' => Next db'
                  | Throw _ =>
                      Replied db (json_ (errorBody "Internal server error")
                                        (status 500 res))
                  end
            | None =>
                Replied db (json_ (errorBody "Invalid or inactive API key")
                                  (status 401 res))
            end
        | Throw _ =>
            Replied db (json_ (errorBody "Internal server error") (status 500 res))
        end
  | None =>
      Replied db (json_ (errorBody "Missing or invalid API key") (status 401 res))
  end.

(** ** Request validation: [messageSchema] and [chatRequestSchema]

    The schemas are built from zod's combinators: [z.object] reads the
    properties of its shape (a missing one as [undefined]), parses all of
    them, collects the issues of all and drops every other property;
    [z.array] parses the elements and runs its length checks;
    [z.enum], [z.string] and [z.boolean] report an issue for a value of
    another kind; [.min(n, msg)] and [.max(n, msg)] report [msg];
    [.optional().default(false)] turns [undefined] into [false]. Where the
    versions of zod differ, the behaviour is a field of [Zod]. An issue is
    kept as its path, its code and its message. *)

Inductive Role : Type := system | user | assistant.

Record Message : Type := mkMessage {
  role : Role;
  content : string;
}.

(** [validation.data]: the parsed request, unknown properties dropped. *)
Record ChatRequest : Type := mkChatRequest {
  messages : list Message;
  stream : bool;
}.

Inductive PathSeg : Type :=
| Key (k : string)
| Index (i : nat).

Inductive IssueCode : Type :=
| invalid_type (expected : string)
| invalid_value
| too_small
| too_big.

(** A zod issue, as far as the handler reads it: [path] and [message]. *)
Record Issue : Type := mkIssue {
  path : list PathSeg;
  code : IssueCode;
  message : string;
}.

(** A schema applied to a value: the parsed data, or the issues found. *)
Definition Parsed (A : Type) : Type := list Issue + A.

Definition issuesOf {A} (p : Parsed A) : list Issue :=
  match p with inl issues => issues | inr _ => [] end.

(** The parent schema puts its key in front of the paths of a child's
    issues. *)
Definition prefixIssues (seg : PathSeg) (issues : list Issue) : list Issue :=
  map (λ i, mkIssue (seg :: path i) (code i) (message i)) issues.

Definition under {A} (seg : PathSeg) (p : Parsed A) : Parsed A :=
  match p with inl issues => inl (prefixIssues seg issues) | inr a => inr a end.

(** An object schema parses every property of its shape and collects the
    issues of all of them. *)
Definition both {A B} (a : Parsed A) (b : Parsed B) : Parsed (A * B) :=
  match a, b with
  | inr x, inr y => inr (x, y)
  | _, _ => inl (issuesOf a ++ issuesOf b)
  end.

(** [path.join('.')] *)
Definition segText (seg : PathSeg) : string :=
  match seg with
  | Key k => k
  | Index i => pretty i
  end.

Definition joinPath (p : list PathSeg) : string :=
  String.concat "." (map segText p).

(** When an array schema runs its length checks: after the elements were
    parsed, before, or, for an array that is too long, without parsing the
    elements at all. *)
Inductive ArrayChecks : Type :=
| AfterElements
| BeforeElements
| InsteadOfElements.

(** What the installed zod decides and the schemas do not: the text of an
    issue that has no message of its own; for a value that is not of the
    schema's kind, whether a length check of the schema finds the value too
    short ([below n]) or too long ([above n]), as versions that run these
    checks on every value with a [length] do; and the order of parsing and
    length checks on arrays. *)
Record Zod : Type := mkZod {
  defaultMessage : IssueCode → option json → string;
  below : nat → option json → bool;
  above : nat → option json → bool;
  arrayChecks : ArrayChecks;
}.

Section Handler.

Variable zod : Zod.

Definition libraryIssue (c : IssueCode) (input : option json) : Issue :=
  mkIssue [] c (defaultMessage zod c input).

(** [z.enum(['system', 'user', 'assistant'])] *)
Definition parseRole (input : option json) : Parsed Role :=
  match input with
  | Some (JStr s) =>
      if String.eqb s "system" then inr system
      else if String.eqb s "user" then inr user
      else if String.eqb s "assistant" then inr assistant
      else inl [libraryIssue invalid_value input]
  | _ => inl [libraryIssue invalid_value input]
  end.

(** [z.string().min(1, 'Message content cannot be empty')] *)
Definition parseContent (input : option json) : Parsed string :=
  match input with
  | Some (JStr s) =>
      if (String.length s <? 1)%nat
      then inl [mkIssue [] too_small "Message content cannot be empty"]
      else inr s
  | _ =>
      inl (libraryIssue (invalid_type "string") input
           :: (if below zod 1 input
               then [mkIssue [] too_small "Message content cannot be empty"]
               else []))
  end.

(** [messageSchema] *)
Definition parseMessage (input : option json) : Parsed Message :=
  match input with
  | Some (JObj fields) =>
      match both (under (Key "role") (parseRole (getField "role" fields)))
                 (under (Key "content") (parseContent (getField "content" fields)))
      with
      | inr (r, c) => inr (mkMessage r c)
      | inl issues => inl issues
      end
  | _ => inl [libraryIssue (invalid_type "object") input]
  end.

(** The elements of the array, from index [i] on: every element is parsed,
    and the issues of all of them are kept. *)
Fixpoint parseItems (i : nat) (items : list json) : list Issue * list Message :=
  match items with
  | [] => ([], [])
  | item :: rest =>
      let (issues, ms) := parseItems (S i) rest in
      match under (Index i) (parseMessage (Some item)) with
      | inl e => (e ++ issues, ms)
      | inr m => (issues, m :: ms)
      end
  end.

(** [z.array(messageSchema).min(1, ...).max(100, ...)] *)
Definition parseMessages (input : option json) : Parsed (list Message) :=
  let few := mkIssue [] too_small "At least one message is required" in
  let many := mkIssue [] too_big "Too many messages (max 100)" in
  match input with
  | Some (JArr items) =>
      let (issues, ms) := parseItems 0 items in
      let tooFew := if (length items <? 1)%nat then [few] else [] in
      let tooMany := if (100 <? length items)%nat then [many] else [] in
      let all :=
        match arrayChecks zod with
        | AfterElements => issues ++ tooFew ++ tooMany
        | BeforeElements => tooFew ++ tooMany ++ issues
        | InsteadOfElements =>
            if (100 <? length items)%nat then tooMany else issues ++ tooFew
        end in
      match all with
      | [] => inr ms
      | _ :: _ => inl all
      end
  | _ =>
      inl (libraryIssue (invalid_type "array") input
           :: (if below zod 1 input then [few] else [])
           ++ (if above zod 100 input then [many] else []))
  end.

(** [z.boolean().optional().default(false)] *)
Definition parseStream (input : option json) : Parsed bool :=
  match input with
  | None => inr false
  | Some (JBool b) => inr b
  | Some _ => inl [libraryIssue (invalid_type "boolean") input]
  end.

(** [chatRequestSchema.safeParse(req.body)] *)
Definition safeParse (body : option json) : Parsed ChatRequest :=
  match body with
  | Some (JObj fields) =>
      match both (under (Key "messages") (parseMessages (getField "messages" fields)))
                 (under (Key "stream") (parseStream (getField "stream" fields)))
      with
      | inr (ms, st) => inr (mkChatRequest ms st)
      | inl issues => inl issues
      end
  | _ => inl [libraryIssue (invalid_type "object") body]
  end.

(** The [details] array of the 400 answer. *)
Definition detail (err : Issue) : json :=
  JObj [("field", JStr (joinPath (path err))); ("message", JStr (message err))].

Definition validationFailed (issues : list Issue) : json :=
  JObj [("error", JStr "Validation failed"); ("details", JArr (map detail issues))].

(** ** The backend call *)

(** [process.env], as far as the handler reads it. *)
Record Env : Type := mkEnv {
  OLLAMA_URL : option string;
  OLLAMA_MODEL : option string;
}.

(** [v || fallback] on an optional string. *)
Definition orElse (v : option string) (fallback : string) : string :=
  match v with
  | Some s => if truthy v then s else fallback
  | None => fallback
  end.

(** The arguments of one [fetch]. [reqBody] is the value handed to
    [JSON.stringify]. *)
Record FetchCall : Type := mkFetchCall {
  url : string;
  method : string;
  reqHeaders : list (string * string);
  reqBody : json;
}.

(** The backend's [Response]: a [Headers] object keeps lower-cased names. *)
Record BackendResponse : Type := mkBackendResponse {
  respStatus : Z;
  respHeaders : gmap string string;
  respBody : option ReaderScript;
}.

Inductive FetchResult : Type :=
| Resolves (response : BackendResponse)
| Rejects (error : JsError).

(** The backend and the network, and with them the abort signal: a client
    that closes the connection before [res.end()] makes the pending [fetch]
    reject with an [AbortError], or the pending [reader.read()] reject. *)
Definition Backend : Type := FetchCall → FetchResult.

(** [response.headers.get(name)] *)
Definition get (name : string) (response : BackendResponse) : option string :=
  respHeaders response !! lowerName name.

Definition roleText (r : Role) : string :=
  match r with
  | system => "system"
  | user => "user"
  | assistant => "assistant"
  end.

Definition messageJson (m : Message) : json :=
  JObj [("role", JStr (roleText (role m))); ("content", JStr (content m))].

(** The object literal given to [JSON.stringify] for the backend. *)
Definition backendBody (model : string) (data : ChatRequest) : json :=
  JObj [("model", JStr model);
        ("messages", JArr (map messageJson (messages data)));
        ("stream", JBool (stream data));
        ("keep_alive", JNum (-1))].

Definition backendCall (env : Env) (data : ChatRequest) : FetchCall :=
  let ollamaUrl := orElse (OLLAMA_URL env) "http://localhost:11434" in
  let model := orElse (OLLAMA_MODEL env) "nemotron-3-nano" in
  mkFetchCall (ollamaUrl +:+ "/api/chat") "POST"
              [("Content-Type", "application/json")]
              (backendBody model data).

Definition headersToForward : list string :=
  ["content-type"; "transfer-encoding"; "cache-control"; "content-encoding"].

(** The body of the [forEach] over [headersToForward]. *)
Definition forwardHeader (response : BackendResponse) (res : Response)
    (header : string) : Response :=
  let value := get header response in
  match value with
  | Some v => if truthy value then setHeader header v res else res
  | None => res
  end.

Definition forwardHeaders (response : BackendResponse) (res : Response) : Response :=
  fold_left (forwardHeader response) headersToForward res.

(** [error instanceof Error && error.name === 'AbortError'] *)
Definition isAbortError (e : JsError) : bool :=
  instanceofError e && String.eqb (errName e) "AbortError".

(** The [catch] around the backend call. *)
Definition onFetchError (e : JsError) (res : Response) : Response :=
  if isAbortError e then
    if negb (headersSent res) then end_ (status 499 res) else res
  else
    if negb (headersSent res)
    then json_ (errorBody "Failed to connect to Ollama") (status 502 res)
    else res.

(** ** The handler of [POST /chat] *)

(** The state of one proxied request: the response, the reader lock and the
    relay's steps. *)
Definition session (res : Response) : Relay := mkRelay res false [].

(** What a request leaves behind: the [fetch] calls made and the handler's
    promise with the state it reached. *)
Record Outcome : Type := mkOutcome {
  calls : list FetchCall;
  handler : Async Relay;
}.

Definition reply (o : Outcome) : Response := res (stateOf (handler o)).

(** The route handler after the middleware. *)
Definition chatHandler (env : Env) (backend : Backend) (sock : Socket)
    (body : option json) (res : Response) : Outcome :=
  match safeParse body with
  | inl issues =>
      mkOutcome [] (Settled (session (json_ (validationFailed issues) (status 400 res))))
  | inr data =>
      let call := backendCall env data in
      match backend call with
      | Resolves response =>
          let res := status (respStatus response) res in
          let res := if stream data then setHeader "X-Accel-Buffering" "no" res
                     else res in
          let res := forwardHeaders response res in
          match respBody response with
          | Some src =>
              (* [response.body.getReader()] locks the body *)
              mkOutcome [call] (readStream sock src (mkRelay res true []))
          | None => mkOutcome [call] (Settled (session (end_ res)))
          end
      | Rejects error =>
          mkOutcome [call] (Settled (session (onFetchError error res)))
      end
  end.

(** One [POST /chat] request as it reaches the route: its Authorization
    header and [req.body], the JSON that [express.json()] parsed
    ([undefined] when the request had none). *)
Record Request : Type := mkRequest {
  authorization : option string;
  reqJson : option json;
}.

(** [app.post('/chat', validateApiKey, handler)]: the store after the
    request and what the request left behind. *)
Definition postChat (now : Z) (env : Env) (backend : Backend) (sock : Socket)
    (db : Prisma) (req : Request) (res : Response) : Prisma * Outcome :=
  match validateApiKey now db (authorization req) res with
  | Next db' => (db', chatHandler env backend sock (reqJson req) res)
  | Replied db' res' => (db', mkOutcome [] (Settled (session res')))
  end.

End Handler.

(** ** The application: [app.use(express.json())], then the route *)

(** What [express.json()] makes of an incoming request before any route
    sees it: it leaves the parsed JSON in [req.body] (for a request that
    carries none, [undefined] or the empty object, by the version of
    Express) and calls [next()], or it passes an error on: status 400 for
    text that is not JSON, 413 for a body over the size limit, 415 for an
    unsupported encoding or charset. No error handler is registered in
    [server.ts], so the error reaches Express's own, which answers with the
    error's status and a page of its making. *)
Inductive BodyParse : Type :=
| BodyRead (body : option json)
| BodyRefused (errStatus : Z) (page : Chunk).

(** A [POST /chat] request as it arrives. *)
Record Incoming : Type := mkIncoming {
  authHeader : option string;
  bodyParse : BodyParse;
}.

(** Express's default error handler on a response whose head is not out:
    the status of the error, the content headers of an earlier body
    removed, the headers of the error page, the page as the one chunk of
    the body, the response ended. Once the head is out it leaves the
    response alone and destroys the socket. *)
Definition finalhandler (errStatus : Z) (page : Chunk) (res : Response) : Response :=
  if headersSent res then res
  else
    let hs := base.delete "content-range"
                (base.delete "content-language"
                   (base.delete "content-encoding" (resHeaders res))) in
    let hs := <["content-security-policy" := "default-src 'none'"]> hs in
    let hs := <["x-content-type-options" := "nosniff"]> hs in
    let hs := <["content-type" := "text/html; charset=utf-8"]> hs in
    let hs := <["content-length" := pretty (length page)]> hs in
    mkResponse (express res) errStatus hs true (sent res ++ [page])
               (jsonBody res) true.

(** The middleware stack for [POST /chat]: the body parser registered with
    [app.use] runs first, the route with its key check after it. *)
Definition app (zod : Zod) (now : Z) (env : Env) (backend : Backend)
    (sock : Socket) (db : Prisma) (inc : Incoming) (res : Response)
  : Prisma * Outcome :=
  match bodyParse inc with
  | BodyRead body =>
      postChat zod now env backend sock db (mkRequest (authHeader inc) body) res
  | BodyRefused errStatus page =>
      (db, mkOutcome [] (Settled (session (finalhandler errStatus page res))))
  end.

(** ** The key manager [manageKeys.ts] *)

(** A digit of [buffer.toString('hex')]: [0-9a-f]. *)
Definition hexDigit (n : nat) : ascii :=
  if (n <? 10)%nat then ascii_of_nat (48 + n) else ascii_of_nat (87 + n).

(** [buffer.toString('hex')]: two digits a byte, the high one first. *)
Fixpoint toHex (bytes : list byte) : string :=
  match bytes with
  | [] => EmptyString
  | b :: rest =>
      let n := Byte.to_nat b in
      String (hexDigit (n / 16)) (String (hexDigit (n mod 16)) (toHex rest))
  end.

(** [generateApiKey], [entropy] being the bytes [randomBytes(32)] drew. *)
Definition generateApiKey (entropy : list byte) : string := toHex entropy.

(** [prisma.apiKey.create({ data: { key, description } })]. The columns not
    given take the defaults of the table: the id the database assigns
    ([rowId]), [isActive] true, [createdAt] the current time, [lastUsedAt]
    null. The call throws when the store fails ([fails]) or the key is
    already in the table (the unique index [findUnique] relies on). *)
Definition create (fails : bool) (rowId now : Z) (k d : string) (db : Prisma)
  : Try (Prisma * ApiKey) :=
  if fails then Throw storeError
  else if existsb (λ r, String.eqb (key r) k) (apiKeys db) then Throw storeError
  else
    let row := mkApiKey rowId k (Some d) true now None in
    Ok (mkPrisma (apiKeys db ++ [row]) (findUniqueFails db) (updateFails db), row).

Definition createKey (fails : bool) (entropy : list byte) (rowId now : Z)
    (description : option string) (db : Prisma) : Try (Prisma * ApiKey) :=
  let key := generateApiKey entropy in
  create fails rowId now key (orElse description "No description") db.

Definition setActive (active : bool) (r : ApiKey) : ApiKey :=
  mkApiKey (id r) (key r) (description r) active (createdAt r) (lastUsedAt r).

(** [prisma.apiKey.update({ where: { id }, data: { isActive } })]: throws
    when the store fails or no row has that id. *)
Definition updateActive (rowId : Z) (active : bool) (db : Prisma) : Try Prisma :=
  if updateFails db then Throw storeError
  else if existsb (λ r, id r =? rowId) (apiKeys db) then
    Ok (mkPrisma
          (map (λ r, if id r =? rowId then setActive active r else r) (apiKeys db))
          (findUniqueFails db) (updateFails db))
  else Throw storeError.

Definition deactivateKey (keyId : Z) (db : Prisma) : Try Prisma :=
  updateActive keyId false db.

Definition activateKey (keyId : Z) (db : Prisma) : Try Prisma :=
  updateActive keyId true db.

(** [prisma.apiKey.delete({ where: { id } })]: throws when the store fails
    ([fails]) or no row has that id. *)
Definition delete (fails : bool) (rowId : Z) (db : Prisma) : Try Prisma :=
  if fails then Throw storeError
  else if existsb (λ r, id r =? rowId) (apiKeys db) then
    Ok (mkPrisma (List.filter (λ r, negb (id r =? rowId)) (apiKeys db))
                 (findUniqueFails db) (updateFails db))
  else Throw storeError.

Definition deleteKey (fails : bool) (keyId : Z) (db : Prisma) : Try Prisma :=
  delete fails keyId db.

(** What the tool prints, line group by line group. *)
Inductive Line : Type :=
| KeyCreated (k : ApiKey)
| NoKeysFound
| KeyList (keys : list ApiKey)
| KeyDeactivated (keyId : Z)
| KeyActivated (keyId : Z)
| KeyDeleted (keyId : Z)
| ProvideKeyId
| Usage
| ErrorLine (e : JsError).

(** How the body of the [try] in [main] ends: it completes, it throws, or
    [process.exit] ends the process on the spot. *)
Inductive Ran : Type :=
| Completed (db : Prisma) (out : list Line)
| Thrown (e : JsError)
| Exited (code : Z) (out : list Line).

(** The process when it is over: the table, what was printed, the exit
    code, and whether [prisma.$disconnect()] ran. *)
Record Process : Type := mkProcess {
  store : Prisma;
  printed : list Line;
  exitCode : Z;
  disconnected : bool;
}.

Section Cli.

(** The runtime's [parseInt] ([None] for [NaN]), the rows [findMany] gives
    in the order of [orderBy: { createdAt: 'desc' }], and what the
    environment decides for one run of the tool. *)
Variable parseInt : string → option Z.
Variable findMany : Prisma → Try (list ApiKey).
Variable createFails deleteFails : bool.
Variable entropy : list byte.
Variable rowId now : Z.

(** [listKeys] *)
Definition listKeys (db : Prisma) : Try (list Line) :=
  match findMany db with
  | Ok keys =>
      match keys with
      | [] => Ok [NoKeysFound]
      | _ :: _ => Ok [KeyList keys]
      end
  | Throw e => Throw e
  end.

(** The error of the Prisma client for an argument it refuses. *)
Definition validationError : JsError :=
  mkJsError true "PrismaClientValidationError".

(** A command that takes a key id: the guard on [args[0]], then the
    operation on [parseInt(args[0])]. A [NaN] id is refused by the client
    before it reaches the store. *)
Definition withKeyId (arg : option string) (op : Z → Prisma → Try Prisma)
    (done : Z → Line) (db : Prisma) : Ran :=
  match arg with
  | Some a =>
      if negb (truthy arg) then Exited 1 [ProvideKeyId]
      else
        match parseInt a with
        | Some keyId =>
            match op keyId db with
            | Ok db' => Completed db' [done keyId]
            | Throw e => Thrown e
            end
        | None => Thrown validationError
        end
  | None => Exited 1 [ProvideKeyId]
  end.

(** The [switch] of [main] on [process.argv[2]], [arg] being [args[0]]. *)
Definition dispatch (command arg : option string) (db : Prisma) : Ran :=
  match command with
  | Some c =>
      if String.eqb c "create" then
        match createKey createFails entropy rowId now arg db with
        | Ok (db', k) => Completed db' [KeyCreated k]
        | Throw e => Thrown e
        end
      else if String.eqb c "list" then
        match listKeys db with
        | Ok out => Completed db out
        | Throw e => Thrown e
        end
      else if String.eqb c "deactivate" then
        withKeyId arg deactivateKey KeyDeactivated db
      else if String.eqb c "activate" then
        withKeyId arg activateKey KeyActivated db
      else if String.eqb c "delete" then
        withKeyId arg (deleteKey deleteFails) KeyDeleted db
      else Completed db [Usage]
  | None => Completed db [Usage]
  end.

(** [main]: [try { switch } catch { print; process.exit(1) } finally
    { await prisma.$disconnect() }]. [argv] is [process.argv]. *)
Definition main (argv : list string) (db : Prisma) : Process :=
  let command := argv !! 2%nat in
  let args := drop 3 argv in
  match dispatch command (args !! 0%nat) db with
  | Completed db' out => mkProcess db' out 0 true
  | Thrown e => mkProcess db [ErrorLine e] 1 false
  | Exited code out => mkProcess db out code false
  end.

End Cli.

(** * Specification vocabulary *)

(** The body script that yields [chunks] and then ends as [last]. *)
Definition produce (chunks : list Chunk) (last : ReaderScript) : ReaderScript :=
  foldr Produce last chunks.

(** The chunks a body script yields before it ends. *)
Fixpoint chunksOf (src : ReaderScript) : list Chunk :=
  match src with
  | Produce value rest => value :: chunksOf rest
  | _ => []
  end.

(** The ways out of the loop that let [readStream] return. *)
Definition exits (exit : LoopExit) : bool :=
  match exit with
  | Broke | Threw => true
  | Hung => false
  end.

(** A write the connection takes: at once, or after a drain. *)
Definition accepted (w : WriteResult) : bool :=
  match w with
  | Flushed | Buffered true => true
  | Buffered false | WriteThrows => false
  end.

(** The change a step makes to the number of chunks that were read and are
    not yet accepted by the connection: a read takes one in hand, a write
    that returns [true] or the drain after one that returned [false] hands
    it over. *)
Definition held (e : Event) : Z :=
  match e with
  | EvRead _ => 1
  | EvWrite _ true => -1
  | EvDrain => -1
  | _ => 0
  end.

Fixpoint inHand (t : list Event) : Z :=
  match t with
  | [] => 0
  | e :: rest => held e + inHand rest
  end.

(** The steps [readStream] adds after the loop, by the way the loop ended. *)
Definition closing (exit : LoopExit) (headOut : bool) : list Event :=
  match exit with
  | Broke => [EvEnd; EvReleaseLock]
  | Threw => if headOut then [EvEnd; EvReleaseLock]
             else [EvErrorBody; EvEnd; EvReleaseLock]
  | Hung => []
  end.

(** The shapes a run of the loop can have, by the way it ends. *)
Inductive LoopTrace : LoopExit → list Event → Prop :=
| LT_done : LoopTrace Broke [EvReadDone]
| LT_read_throw : LoopTrace Threw [EvReadThrow]
| LT_read_pending : LoopTrace Hung [EvReadPending]
| LT_write_throw c : LoopTrace Threw [EvRead c; EvWriteThrow c]
| LT_no_drain c : LoopTrace Hung [EvRead c; EvWrite c false; EvAwaitDrain]
| LT_flushed c exit t :
    LoopTrace exit t → LoopTrace exit (EvRead c :: EvWrite c true :: t)
| LT_drained c exit t :
    LoopTrace exit t →
    LoopTrace exit (EvRead c :: EvWrite c false :: EvAwaitDrain :: EvDrain :: t).

(** The requests that lack a valid bearer token: no header, a header
    without the [Bearer ] scheme, a token the store has no record of, or a
    token whose record is inactive (the store answering the lookup). *)
Inductive LacksValidKey (db : Prisma) : option string → Prop :=
| header_missing : LacksValidKey db None
| wrong_scheme h : startsWith "Bearer " h = false → LacksValidKey db (Some h)
| unknown_token h :
    findUniqueFails db = false →
    (∀ r, r ∈ apiKeys db → key r ≠ substringFrom 7 h) →
    LacksValidKey db (Some h)
| inactive_key h r :
    findUniqueFails db = false →
    r ∈ apiKeys db → key r = substringFrom 7 h → isActive r = false →
    LacksValidKey db (Some h).

(** The store invariant: the secret value is unique across the table. *)
Definition uniqueKeys (db : Prisma) : Prop := NoDup (key <$> apiKeys db).

(** ** What the validator is to accept, in the words of the contract *)

Definition isRole (v : option json) : Prop :=
  v = Some (JStr "system") ∨ v = Some (JStr "user") ∨ v = Some (JStr "assistant").

Definition isText (v : option json) : Prop :=
  ∃ s, v = Some (JStr s) ∧ s ≠ "".

Definition validMessage (item : json) : Prop :=
  ∃ fields, item = JObj fields
            ∧ isRole (getField "role" fields)
            ∧ isText (getField "content" fields).

Definition validStream (v : option json) : Prop :=
  v = None ∨ ∃ b, v = Some (JBool b).

Definition validMessages (v : option json) : Prop :=
  ∃ items, v = Some (JArr items)
           ∧ (1 ≤ length items ≤ 100)%nat
           ∧ Forall validMessage items.

Definition validBody (body : option json) : Prop :=
  ∃ fields, body = Some (JObj fields)
            ∧ validMessages (getField "messages" fields)
            ∧ validStream (getField "stream" fields).

(** The fields of a message that violate the contract, by their path from
    the message. *)
Inductive ViolatesMessage (item : json) : list PathSeg → Prop :=
| message_not_object :
    (∀ fields, item ≠ JObj fields) → ViolatesMessage item []
| role_not_listed fields :
    item = JObj fields → ¬ isRole (getField "role" fields) →
    ViolatesMessage item [Key "role"]
| content_not_text fields :
    item = JObj fields → ¬ isText (getField "content" fields) →
    ViolatesMessage item [Key "content"].

(** The fields of [messages] that violate the contract. *)
Inductive ViolatesMessages (v : option json) : list PathSeg → Prop :=
| messages_not_array :
    (∀ items, v ≠ Some (JArr items)) → ViolatesMessages v []
| messages_length items :
    v = Some (JArr items) → ¬ (1 ≤ length items ≤ 100)%nat →
    ViolatesMessages v []
| messages_item items j item q :
    v = Some (JArr items) → items !! j = Some item → ViolatesMessage item q →
    ViolatesMessages v (Index j :: q).

(** The fields of a request body that violate the contract. *)
Inductive Violates (body : option json) : list PathSeg → Prop :=
| body_not_object :
    (∀ fields, body ≠ Some (JObj fields)) → Violates body []
| in_messages fields q :
    body = Some (JObj fields) →
    ViolatesMessages (getField "messages" fields) q →
    Violates body (Key "messages" :: q)
| in_stream fields :
    body = Some (JObj fields) → ¬ validStream (getField "stream" fields) →
    Violates body [Key "stream"].

(** The paths of the issues a schema reports. *)
Definition issuePaths {A} (p : Parsed A) : list (list PathSeg) :=
  path <$> issuesOf p.

(** A failed parse reports at least one issue. *)
Definition reportsSomething {A} (p : Parsed A) : Prop :=
  ∀ issues, p = inl issues → issues ≠ [].

(** The name of a field in a 400 answer: the keys and indices of its path,
    joined by dots. *)
Definition segName (seg : PathSeg) : string :=
  match seg with
  | Key k => k
  | Index i => pretty i
  end.

Fixpoint dotted (q : list PathSeg) : string :=
  match q with
  | [] => ""
  | seg :: rest =>
      match rest with
      | [] => segName seg
      | _ :: _ => segName seg +:+ "." +:+ dotted rest
      end
  end.

(** The entry of the [details] array for a field and its message. *)
Definition detailOf (q : list PathSeg) (msg : string) : json :=
  JObj [("field", JStr (dotted q)); ("message", JStr msg)].

(** A field inside an element of a [messages] array of more than 100
    elements. *)
Definition inOverlongArray (body : option json) (q : list PathSeg) : Prop :=
  ∃ fields items j q',
    body = Some (JObj fields)
    ∧ getField "messages" fields = Some (JArr items)
    ∧ (100 < length items)%nat
    ∧ q = Key "messages" :: Index j :: q'.

(** The issues of the array schema on an array, by the order of its
    checks. *)
Definition arrayIssues (locale : Zod) (items : list json) : list Issue :=
  let issues := (parseItems locale 0 items).1 in
  let tooFew :=
    if (length items <? 1)%nat
    then [mkIssue [] too_small "At least one message is required"] else [] in
  let tooMany :=
    if (100 <? length items)%nat
    then [mkIssue [] too_big "Too many messages (max 100)"] else [] in
  match arrayChecks locale with
  | AfterElements => issues ++ tooFew ++ tooMany
  | BeforeElements => tooFew ++ tooMany ++ issues
  | InsteadOfElements =>
      if (100 <? length items)%nat then tooMany else issues ++ tooFew
  end.

(** The value of a backend header that is there to be forwarded: the header
    is present and its value is not empty. *)
Definition forwardable (response : BackendResponse) (h : string) : option string :=
  match respHeaders response !! h with
  | Some v => if String.eqb v "" then None else Some v
  | None => None
  end.

(** The [model] property of the body of a backend call. *)
Definition modelOf (call : FetchCall) : option json :=
  match reqBody call with
  | JObj fields => getField "model" fields
  | _ => None
  end.

(** The configured value, or the default when it is unset or empty. *)
Definition configured (v : option string) (default : string) : string :=
  match v with
  | Some (String a rest) => String a rest
  | _ => default
  end.

(** A parsed message carries the role and the content of the element it
    was parsed from. *)
Definition parsedFrom (item : json) (m : Message) : Prop :=
  ∃ fields, item = JObj fields
            ∧ getField "role" fields = Some (JStr (roleText (role m)))
            ∧ getField "content" fields = Some (JStr (content m)).

(** The message the backend is to receive for an element of the request's
    [messages]: an object of the element's role and content, in this
    order, and of nothing else the element may carry. *)
Definition relayedMessage (item relayed : json) : Prop :=
  ∃ fields r c,
    item = JObj fields
    ∧ getField "role" fields = Some (JStr r)
    ∧ getField "content" fields = Some (JStr c)
    ∧ relayed = JObj [("role", JStr r); ("content", JStr c)].

(** A row before and after a request: nothing but the last-used timestamp
    may differ, and that only by becoming [now]. *)
Definition sameKey (now : Z) (r r' : ApiKey) : Prop :=
  id r' = id r ∧ key r' = key r ∧ description r' = description r
  ∧ isActive r' = isActive r ∧ createdAt r' = createdAt r
  ∧ (lastUsedAt r' = lastUsedAt r ∨ lastUsedAt r' = Some now).

(** Two elements of [messages] that agree on [role] and [content]. *)
Definition sameMessage (item1 item2 : json) : Prop :=
  (∃ fields1 fields2,
      item1 = JObj fields1 ∧ item2 = JObj fields2
      ∧ getField "role" fields1 = getField "role" fields2
      ∧ getField "content" fields1 = getField "content" fields2).

(** A body script that fails after [chunks]: the next read rejects, or the
    next chunk's write throws. *)
Definition failsAfter (sock : Socket) (chunks : list Chunk) (src : ReaderScript)
  : Prop :=
  src = produce chunks Errored
  ∨ ∃ c rest, src = produce chunks (Produce c rest)
              ∧ sock (length chunks) = WriteThrows.

(** The 400 answer of a request names the field at [q] with [msg]. *)
Definition reports (o : Outcome) (q : list PathSeg) (msg : string) : Prop :=
  statusCode (reply o) = 400
  ∧ ∃ ds, jsonBody (reply o)
          = Some (JObj [("error", JStr "Validation failed");
                        ("details", JArr ds)])
          ∧ detailOf q msg ∈ ds.

(** A lower-case hexadecimal digit. *)
Definition isHexChar (a : ascii) : bool :=
  let n := nat_of_ascii a in
  ((48 <=? n) && (n <=? 57) || (97 <=? n) && (n <=? 102))%nat.

(** The primary key: no two rows share an id. *)
Definition uniqueIds (db : Prisma) : Prop := NoDup (id <$> apiKeys db).

(** ** Sample inputs *)

(** A zod that runs length checks on every string and array, and does not
    parse the elements of an array that is too long. *)
Definition sampleLocale : Zod :=
  mkZod (λ _ _, "Invalid input")
        (λ n v, match v with
                | Some (JStr s) => (String.length s <? n)%nat
                | Some (JArr l) => (length l <? n)%nat
                | _ => false
                end)
        (λ n v, match v with
                | Some (JStr s) => (n <? String.length s)%nat
                | Some (JArr l) => (n <? length l)%nat
                | _ => false
                end)
        InsteadOfElements.

(** An Express whose content types keep their value and gain a utf-8
    charset when they name none. *)
Definition sampleExpress : Express :=
  mkExpress
    (λ v, if String.eqb v "application/json" then "application/json; charset=utf-8"
          else v)
    (λ v, if String.eqb v "application/json; charset=utf-8" then v
          else v +:+ "; charset=utf-8")
    (λ _, 40%nat)
    (λ _, "W/28-sample").

Definition blank : Response := mkResponse sampleExpress 200 ∅ false [] None false.

Definition sampleEnv : Env := mkEnv None None.

Definition hiBody : option json :=
  Some (JObj [("messages",
               JArr [JObj [("role", JStr "user"); ("content", JStr "hi")]])]).

Definition hiData : ChatRequest := mkChatRequest [mkMessage user "hi"] false.

Definition sampleChunks : list Chunk := [[x7b; x22; x61]; [x22; x3a]; [x31; x7d]].

Definition ndjson : BackendResponse :=
  mkBackendResponse 200 {[ "content-type" := "application/x-ndjson" ]}
                    (Some (produce sampleChunks Closed)).

Definition streamingBackend : Backend := λ _, Resolves ndjson.

(** The same answer with two headers outside the allow-list. *)
Definition ndjsonWithExtras : BackendResponse :=
  mkBackendResponse 200
    {[ "content-type" := "application/x-ndjson";
       "x-request-id" := "42"; "set-cookie" := "session=1" ]}
    (Some (produce sampleChunks Closed)).

(** A connection that is full on every second write and drains again. *)
Definition alternating : Socket :=
  λ n, if Nat.even n then Flushed else Buffered true.

Definition sampleKey (active : bool) : ApiKey :=
  mkApiKey 1 "abc123" None active 0 None.

Definition sampleStore (active updateFails : bool) : Prisma :=
  mkPrisma [sampleKey active] false updateFails.

(** A body with three violations: an unknown role, an empty content and a
    [stream] that is not a boolean. *)
Definition sloppyBody : option json :=
  Some (JObj [("messages",
               JArr [JObj [("role", JStr "bot"); ("content", JStr "")]]);
              ("stream", JStr "yes")]).

Definition abortError : JsError := mkJsError true "AbortError".

Definition connectionRefused : JsError := mkJsError true "TypeError".

(** The backend has answered and streams; the client closes the connection
    before a first chunk arrives, and the abort makes the read reject. *)
Definition abortedBeforeFirstChunk : BackendResponse :=
  mkBackendResponse 200 {[ "content-type" := "application/x-ndjson" ]}
                    (Some Errored).

(** A backend answer with an allow-listed header whose value is empty and
    a header outside the allow-list. *)
Definition bareCacheControl : BackendResponse :=
  mkBackendResponse 200 {[ "cache-control" := ""; "x-request-id" := "42" ]} None.

(** [hiBody] with a [model] and another property added by the client. *)
Definition hijackBody : list (string * json) :=
  [("model", JStr "another-model");
   ("messages", JArr [JObj [("role", JStr "user"); ("content", JStr "hi")]]);
   ("keep_alive", JNum 0)].

Definition sampleEntropy : list byte := repeat xab 32.

(** A [parseInt] for the sample runs: the ids 1 and 7, nothing else. *)
Definition sampleParseInt (s : string) : option Z :=
  if String.eqb s "1" then Some 1
  else if String.eqb s "7" then Some 7 else None.

Definition sampleFindMany (db : Prisma) : Try (list ApiKey) :=
  Ok (rev (apiKeys db)).

(** 101 messages, the first with an empty content. *)
Definition crowdedBody : option json :=
  Some (JObj [("messages",
               JArr (JObj [("role", JStr "user"); ("content", JStr "")]
                     :: repeat (JObj [("role", JStr "user");
                                      ("content", JStr "hi")]) 100))]).

Definition bearer : Request := mkRequest (Some "Bearer abc123") hiBody.

(** The same request as it arrives, its body read by the body parser. *)
Definition inactiveBearer : Incoming :=
  mkIncoming (Some "Bearer abc123") (BodyRead hiBody).

(** A request without a key whose body is not JSON: the body parser passes
    on an error of status 400, and the error handler renders a page. *)
Definition malformed : Incoming :=
  mkIncoming None (BodyRefused 400 [x3c; x21; x44]).

(** * The relay *)

Lemma inHand_app (t u : list Event) : inHand (t ++ u) = inHand t + inHand u.
Proof.
  induction t as [|e t IH]; simpl; lia.
Qed.

Lemma relayLoop_trace (sock : Socket) (src : ReaderScript) :
  ∀ n s, ∃ t,
    LoopTrace (relayLoop sock n src s).1 t
    ∧ trace (relayLoop sock n src s).2 = trace s ++ t.
Proof.
  induction src as [| | |c rest IH]; intros n s; simpl.
  - exists [EvReadDone]. split; [constructor|done].
  - exists [EvReadThrow]. split; [constructor|done].
  - exists [EvReadPending]. split; [constructor|done].
  - destruct (sock n) as [|[|]|].
    + edestruct IH as (t & Ht & ->).
      exists (EvRead c :: EvWrite c true :: t). split; [by constructor|].
      simpl. by rewrite <- !app_assoc.
    + edestruct IH as (t & Ht & ->).
      exists (EvRead c :: EvWrite c false :: EvAwaitDrain :: EvDrain :: t).
      split; [by constructor|]. simpl. by rewrite <- !app_assoc.
    + exists [EvRead c; EvWrite c false; EvAwaitDrain].
      split; [constructor|]. simpl. by rewrite <- !app_assoc.
    + exists [EvRead c; EvWriteThrow c]. split; [constructor|].
      simpl. by rewrite <- !app_assoc.
Qed.

Lemma relayLoop_lock (sock : Socket) (src : ReaderScript) :
  ∀ n s, lockHeld (relayLoop sock n src s).2 = lockHeld s.
Proof.
  induction src as [| | |c rest IH]; intros n s; simpl; try done.
  destruct (sock n) as [|[|]|]; simpl; try done; by rewrite IH.
Qed.

Lemma readStream_trace (sock : Socket) (src : ReaderScript) (s : Relay) :
  ∃ exit t headOut,
    LoopTrace exit t
    ∧ trace (stateOf (readStream sock src s)) = trace s ++ t ++ closing exit headOut.
Proof.
  unfold readStream.
  destruct (relayLoop_trace sock src 0%nat s) as (t & Ht & Htr).
  destruct (relayLoop sock 0 src s) as [exit s']; simpl in *.
  exists exit, t. destruct exit; simpl.
  - exists true. rewrite Htr. by rewrite <- !app_assoc.
  - destruct (headersSent (res s')) eqn:Hs; simpl.
    + exists true. rewrite Htr. by rewrite <- !app_assoc.
    + exists false. rewrite Htr. by rewrite <- !app_assoc.
  - exists true. by rewrite Htr, app_nil_r.
Qed.

Ltac split_prefix :=
  repeat match goal with
  | H : _ `prefix_of` [] |- _ => apply prefix_nil_inv in H; subst
  | H : ?pre `prefix_of` (_ :: _) |- _ =>
      destruct pre;
      [clear H
      |pose proof (prefix_cons_inv_1 _ _ _ _ H); apply prefix_cons_inv_2 in H; subst]
  end.

Lemma loop_in_hand exit t headOut :
  LoopTrace exit t →
  ∀ pre, pre `prefix_of` t ++ closing exit headOut → 0 ≤ inHand pre ≤ 1.
Proof.
  induction 1 as [| | |c|c|c exit t _ IH|c exit t _ IH]; intros pre Hpre;
    simpl in Hpre.
  1-5: destruct headOut; simpl in Hpre; split_prefix; simpl; lia.
  all: split_prefix; simpl; try lia; specialize (IH _ Hpre); lia.
Qed.

Lemma loop_backpressure exit t headOut :
  LoopTrace exit t →
  ∀ pre c post,
    t ++ closing exit headOut = pre ++ EvWrite c false :: post →
    post = [EvAwaitDrain] ∨ ∃ post', post = EvAwaitDrain :: EvDrain :: post'.
Proof.
  induction 1 as [| | |c0|c0|c0 exit t _ IH|c0 exit t _ IH]; intros pre c post Heq;
    simpl in Heq.
  1-4: destruct headOut; simpl in Heq;
       repeat (destruct pre as [|? pre]; simplify_eq/=).
  - destruct pre as [|? pre]; simplify_eq/=.
    destruct pre as [|? pre]; simplify_eq/=; [by left|].
    repeat (destruct pre as [|? pre]; simplify_eq/=).
  - destruct pre as [|? pre]; simplify_eq/=.
    destruct pre as [|? pre]; simplify_eq/=. eauto.
  - destruct pre as [|? pre]; simplify_eq/=.
    destruct pre as [|? pre]; simplify_eq/=; [right; eauto|].
    destruct pre as [|? pre]; simplify_eq/=.
    destruct pre as [|? pre]; simplify_eq/=. eauto.
Qed.

(** The loop touches nothing of the response but the head flag and the
    queue of written chunks, and it queues the chunks in the order read. *)
Lemma relayLoop_frame (sock : Socket) (src : ReaderScript) :
  ∀ n s,
    let r' := res (relayLoop sock n src s).2 in
    statusCode r' = statusCode (res s)
    ∧ resHeaders r' = resHeaders (res s)
    ∧ jsonBody r' = jsonBody (res s)
    ∧ writableEnded r' = writableEnded (res s)
    ∧ ∃ k, sent r' = sent (res s) ++ take k (chunksOf src).
Proof.
  induction src as [| | |c rest IH]; intros n s; simpl.
  1-3: repeat split; try done; exists 0%nat; by rewrite app_nil_r.
  destruct (sock n) as [|[|]|]; simpl.
  1-2: edestruct IH as (-> & -> & -> & -> & k & ->); simpl;
       repeat split; try done; exists (S k); by rewrite <- app_assoc.
  - repeat split; try done. by exists 1%nat.
  - repeat split; try done. exists 0%nat. by rewrite app_nil_r.
Qed.

Lemma relayLoop_accepting (sock : Socket) (chunks : list Chunk) :
  ∀ n s,
    (∀ i, (i < length chunks)%nat → accepted (sock (n + i)%nat) = true) →
    (relayLoop sock n (produce chunks Closed) s).1 = Broke
    ∧ sent (res (relayLoop sock n (produce chunks Closed) s).2)
      = sent (res s) ++ chunks.
Proof.
  induction chunks as [|c chunks IH]; intros n s Hacc; simpl.
  - by rewrite app_nil_r.
  - pose proof (Hacc 0%nat ltac:(simpl; lia)) as H0.
    rewrite Nat.add_0_r in H0.
    assert (∀ i, (i < length chunks)%nat → accepted (sock (S n + i)%nat) = true)
      as Hrest.
    { intros i Hi. specialize (Hacc (S i) ltac:(simpl; lia)).
      by rewrite Nat.add_succ_r in Hacc. }
    destruct (sock n) as [|[|]|]; simpl in H0; try done.
    + destruct (IH (S n) (emit (EvWrite c true) (onRes (write c) (emit (EvRead c) s)))
                   Hrest) as [-> ->].
      simpl. by rewrite <- app_assoc.
    + destruct (IH (S n)
                   (emit EvDrain (emit EvAwaitDrain (emit (EvWrite c false)
                      (onRes (write c) (emit (EvRead c) s))))) Hrest) as [-> ->].
      simpl. by rewrite <- app_assoc.
Qed.

Lemma readStream_accepting (sock : Socket) (chunks : list Chunk) (s : Relay) :
  (∀ i, (i < length chunks)%nat → accepted (sock i) = true) →
  ∃ f, readStream sock (produce chunks Closed) s = Settled f
       ∧ sent (res f) = sent (res s) ++ chunks
       ∧ statusCode (res f) = statusCode (res s)
       ∧ resHeaders (res f) = resHeaders (res s)
       ∧ jsonBody (res f) = jsonBody (res s)
       ∧ writableEnded (res f) = true.
Proof.
  intros Hacc. unfold readStream.
  destruct (relayLoop_accepting sock chunks 0%nat s Hacc) as [Hexit Hsent].
  destruct (relayLoop_frame sock (produce chunks Closed) 0%nat s)
    as (Hst & Hh & Hj & _ & _).
  destruct (relayLoop sock 0 (produce chunks Closed) s) as [exit s'].
  simpl in *. subst exit. eexists. split; [done|]. simpl. by repeat split.
Qed.

(** The forwarding of headers leaves status, head flag and body alone. *)
Lemma forwardHeaders_frame (response : BackendResponse) (r : Response) :
  let r' := forwardHeaders response r in
  statusCode r' = statusCode r ∧ headersSent r' = headersSent r
  ∧ sent r' = sent r ∧ jsonBody r' = jsonBody r
  ∧ writableEnded r' = writableEnded r.
Proof.
  unfold forwardHeaders. generalize headersToForward. intros hs. revert r.
  induction hs as [|h hs IH]; intros r; simpl; [done|].
  destruct (IH (forwardHeader response r h)) as (-> & -> & -> & -> & ->).
  unfold forwardHeader. destruct (get h response) as [v|]; [|done].
  by destruct (truthy (Some v)).
Qed.

Lemma untouched_inv (r : Response) :
  untouched r = true →
  headersSent r = false ∧ writableEnded r = false
  ∧ sent r = [] ∧ jsonBody r = None.
Proof.
  unfold untouched. destruct (headersSent r), (writableEnded r), (sent r),
    (jsonBody r); simpl; try done.
Qed.

(** ** C1: the relay is transparent *)

(** C1. When the backend answers a valid request with a body that yields
    [chunks] and then reports done, and the connection takes every write
    (at once or after a drain), the handler returns with exactly [chunks]
    written to the client, each once and in the order read, so the bytes
    delivered are the concatenation of the backend's chunks; no JSON body is
    sent and the status is the backend's. *)
Theorem chat_stream_transparent
    (locale : Zod) (env : Env)
    (backend : Backend) (sock : Socket) (body : option json) (res0 : Response)
    (data : ChatRequest) (response : BackendResponse) (chunks : list Chunk) :
  untouched res0 = true →
  safeParse locale body = inr data →
  backend (backendCall env data) = Resolves response →
  respBody response = Some (produce chunks Closed) →
  (∀ i, (i < length chunks)%nat → accepted (sock i) = true) →
  let o := chatHandler locale env backend sock body res0 in
  isSettled (handler o) = true
  ∧ sent (reply o) = chunks
  ∧ bodyBytes (reply o) = concat chunks
  ∧ jsonBody (reply o) = None
  ∧ statusCode (reply o) = respStatus response
  ∧ writableEnded (reply o) = true.
Proof.
  intros Hfresh Hparse Hfetch Hbody Hacc.
  apply untouched_inv in Hfresh as (Hhead & Hend & Hsent & Hjson).
  unfold chatHandler, reply. rewrite Hparse, Hfetch, Hbody. simpl.
  set (r1 := forwardHeaders response _).
  destruct (readStream_accepting sock chunks (mkRelay r1 true []) Hacc)
    as (f & -> & Hs & Hst & _ & Hj & He).
  simpl in *.
  destruct (forwardHeaders_frame response
              (if stream data
               then setHeader "X-Accel-Buffering" "no" (status (respStatus response) res0)
               else status (respStatus response) res0))
    as (Hst1 & _ & Hs1 & Hj1 & _).
  fold r1 in Hst1, Hs1, Hj1.
  assert (sent r1 = [] ∧ jsonBody r1 = None ∧ statusCode r1 = respStatus response)
    as (Hs2 & Hj2 & Hst2).
  { rewrite Hs1, Hj1, Hst1. by destruct (stream data). }
  unfold bodyBytes. rewrite Hs, Hs2, Hj, Hj2, Hst, Hst2. simpl. done.
Qed.

(** ** C4: backpressure *)

(** C4. In every run of the relay, a write that returns [false] is followed
    by the wait for ['drain'] and by nothing else until the drain arrives
    (in particular by no read); and at every point of the run at most one
    chunk has been read and not yet accepted by the connection. *)
Theorem relay_backpressure (sock : Socket) (src : ReaderScript) (r : Response) :
  let t := trace (stateOf (readStream sock src (mkRelay r true []))) in
  (∀ pre c post,
      t = pre ++ EvWrite c false :: post →
      post = [EvAwaitDrain] ∨ ∃ post', post = EvAwaitDrain :: EvDrain :: post')
  ∧ (∀ pre, pre `prefix_of` t → 0 ≤ inHand pre ≤ 1).
Proof.
  destruct (readStream_trace sock src (mkRelay r true []))
    as (exit & t & headOut & Ht & Heq).
  simpl in *. rewrite Heq. split.
  - intros pre c post. by apply loop_backpressure.
  - intros pre. by apply loop_in_hand.
Qed.

(** ** C5: every exit finalizes *)

(** The loop is left by [break] when the source reports done, by an
    exception when a read or a write fails, and not at all when a read or a
    drain never comes. *)
Lemma loop_exit_cause exit t :
  LoopTrace exit t →
  match exit with
  | Broke => last t = Some EvReadDone
  | Threw => last t = Some EvReadThrow ∨ ∃ c, last t = Some (EvWriteThrow c)
  | Hung => last t = Some EvReadPending ∨ last t = Some EvAwaitDrain
  end.
Proof.
  induction 1 as [| | |c|c|c exit t Ht IH|c exit t Ht IH]; simpl; eauto.
  - destruct t as [|e t]; [inversion Ht|]. exact IH.
  - destruct t as [|e t]; [inversion Ht|]. exact IH.
Qed.


(** C5. Whenever the relay loop is left (the source is exhausted, a read
    fails or a write throws), [readStream] returns with the response ended
    and the reader lock released: [res.end()] was called and
    [reader.releaseLock()] is its last step. *)
Theorem relay_always_finalizes (sock : Socket) (src : ReaderScript) (s : Relay) :
  exits (relayLoop sock 0 src s).1 = true →
  ∃ f, readStream sock src s = Settled f
       ∧ writableEnded (res f) = true
       ∧ lockHeld f = false
       ∧ EvEnd ∈ trace f
       ∧ last (trace f) = Some EvReleaseLock.
Proof.
  unfold readStream. destruct (relayLoop sock 0 src s) as [[| |] s']; simpl;
    intros Hexit; try done.
  - eexists. split; [done|]. simpl. repeat split.
    + set_solver.
    + by rewrite last_snoc.
  - destruct (headersSent (res s')); eexists; (split; [done|]); simpl;
      repeat split; try set_solver; by rewrite last_snoc.
Qed.

Lemma chat_stream_transparent_witness :
  untouched blank = true
  ∧ safeParse sampleLocale hiBody = inr hiData
  ∧ sent (reply (chatHandler sampleLocale sampleEnv streamingBackend alternating
                             hiBody blank)) = sampleChunks.
Proof.
  split; [reflexivity|]. split; [reflexivity|].
  apply (chat_stream_transparent sampleLocale sampleEnv streamingBackend
           alternating hiBody blank hiData ndjson sampleChunks);
    try reflexivity.
  intros i _. unfold alternating. by destruct (Nat.even i).
Defined.

Lemma relay_backpressure_witness :
  0 ≤ inHand [EvRead [x7b; x22; x61]; EvWrite [x7b; x22; x61] true;
              EvRead [x22; x3a]] ≤ 1.
Proof.
  apply (relay_backpressure alternating (produce sampleChunks Closed) blank).
  eexists. vm_compute. reflexivity.
Defined.

Lemma relay_always_finalizes_witness :
  exits (relayLoop (λ _, WriteThrows) 0 (produce sampleChunks Closed)
                   (mkRelay blank true [])).1 = true
  ∧ ∃ f, readStream (λ _, WriteThrows) (produce sampleChunks Closed)
                    (mkRelay blank true []) = Settled f
         ∧ writableEnded (res f) = true
         ∧ lockHeld f = false
         ∧ EvEnd ∈ trace f
         ∧ last (trace f) = Some EvReleaseLock.
Proof.
  split; [reflexivity|].
  apply (relay_always_finalizes (λ _, WriteThrows) (produce sampleChunks Closed)
           (mkRelay blank true [])).
  reflexivity.
Defined.

(** * The middleware *)

Lemma find_none_iff (token : string) (rows : list ApiKey) :
  List.find (λ r, String.eqb (key r) token) rows = None
  ↔ ∀ r, r ∈ rows → key r ≠ token.
Proof.
  induction rows as [|r0 rows IH]; simpl.
  - split; [|done]. intros _ r Hr. by apply elem_of_nil in Hr.
  - destruct (String.eqb_spec (key r0) token) as [Heq|Hne].
    + split; [done|]. intros H. exfalso. apply (H r0); [left|done].
    + rewrite IH. split.
      * intros H r Hr. apply elem_of_cons in Hr as [->|Hr]; auto.
      * intros H r Hr. apply H. by right.
Qed.

Lemma find_unique (token : string) (rows : list ApiKey) (r : ApiKey) :
  NoDup (key <$> rows) → r ∈ rows → key r = token →
  List.find (λ r, String.eqb (key r) token) rows = Some r.
Proof.
  induction rows as [|r0 rows IH]; simpl; intros Hnd Hin Hkey.
  - by apply elem_of_nil in Hin.
  - apply NoDup_cons in Hnd as [Hfresh Hnd].
    apply elem_of_cons in Hin as [->|Hin].
    + by rewrite (proj2 (String.eqb_eq _ _) Hkey).
    + destruct (String.eqb_spec (key r0) token) as [Heq|Hne]; [|by apply IH].
      exfalso. apply Hfresh. rewrite Heq, <- Hkey.
      apply list_elem_of_fmap. by exists r.
Qed.

Lemma validateApiKey_rejects (now : Z) (db : Prisma) (auth : option string)
    (r0 : Response) :
  uniqueKeys db → LacksValidKey db auth →
  ∃ msg, validateApiKey now db auth r0
         = Replied db (json_ (errorBody msg) (status 401 r0)).
Proof.
  intros Huniq Hlack. unfold validateApiKey.
  destruct Hlack as [|h Hscheme|h Hstore Hnone|h r Hstore Hin Hkey Hoff].
  - eauto.
  - rewrite Hscheme, orb_true_r. eauto.
  - destruct (negb (truthy (Some h)) || negb (startsWith "Bearer " h)); [eauto|].
    unfold findUnique. rewrite Hstore.
    rewrite (proj2 (find_none_iff _ _) Hnone). eauto.
  - destruct (negb (truthy (Some h)) || negb (startsWith "Bearer " h)); [eauto|].
    unfold findUnique. rewrite Hstore.
    rewrite (find_unique _ _ r Huniq Hin Hkey), Hoff. simpl. eauto.
Qed.

(** ** C2: no valid key, no backend call *)

Lemma validateApiKey_refusal (now : Z) (db : Prisma) (auth : option string)
    (r0 : Response) :
  uniqueKeys db → LacksValidKey db auth →
  ∃ msg, (msg = "Missing or invalid API key" ∨ msg = "Invalid or inactive API key")
         ∧ validateApiKey now db auth r0
           = Replied db (json_ (JObj [("error", JStr msg)]) (status 401 r0)).
Proof.
  intros Huniq Hlack. unfold validateApiKey, errorBody.
  destruct Hlack as [|h Hscheme|h Hstore Hnone|h r Hstore Hin Hkey Hoff].
  - eauto.
  - rewrite Hscheme, orb_true_r. eauto.
  - destruct (negb (truthy (Some h)) || negb (startsWith "Bearer " h)); [eauto|].
    unfold findUnique. rewrite Hstore.
    rewrite (proj2 (find_none_iff _ _) Hnone). eauto.
  - destruct (negb (truthy (Some h)) || negb (startsWith "Bearer " h)); [eauto|].
    unfold findUnique. rewrite Hstore.
    rewrite (find_unique _ _ r Huniq Hin Hkey), Hoff. simpl. eauto.
Qed.

(** C2, as the code has it. [express.json()] is registered before the
    route, so it sees a request before the key check does. A [POST /chat]
    request whose Authorization header is missing, lacks the [Bearer ]
    prefix, or carries a token that has no record or an inactive record in
    the store never reaches the backend and leaves the store as it was.
    When the body parser let the request through, it is answered 401 with
    a JSON error body, one of the two messages of the middleware; when the
    body parser refused the body, it is answered with the status of the
    parser's error and the error page, the key being looked at by no one. *)
Theorem unauthorized_never_reaches_backend
    (locale : Zod) (now : Z) (env : Env)
    (backend : Backend) (sock : Socket) (db : Prisma) (inc : Incoming)
    (res0 : Response) :
  uniqueKeys db →
  LacksValidKey db (authHeader inc) →
  untouched res0 = true →
  let out := app locale now env backend sock db inc res0 in
  calls out.2 = []
  ∧ out.1 = db
  ∧ isSettled (handler out.2) = true
  ∧ writableEnded (reply out.2) = true
  ∧ match bodyParse inc with
    | BodyRead _ =>
        statusCode (reply out.2) = 401
        ∧ sent (reply out.2) = []
        ∧ ∃ msg, jsonBody (reply out.2) = Some (JObj [("error", JStr msg)])
                 ∧ (msg = "Missing or invalid API key"
                    ∨ msg = "Invalid or inactive API key")
    | BodyRefused errStatus page =>
        statusCode (reply out.2) = errStatus
        ∧ sent (reply out.2) = [page]
        ∧ jsonBody (reply out.2) = None
    end.
Proof.
  intros Huniq Hlack (Hhead & Hend & Hsent & Hjson)%untouched_inv.
  unfold app. destruct (bodyParse inc) as [body|errStatus page].
  - unfold postChat. cbn [authorization].
    destruct (validateApiKey_refusal now db _ res0 Huniq Hlack) as (msg & Hmsg & ->).
    cbn. rewrite Hsent. repeat split; eauto.
  - unfold finalhandler. rewrite Hhead. cbn. rewrite Hsent, Hjson. by repeat split.
Qed.

Lemma unauthorized_never_reaches_backend_witness :
  uniqueKeys (sampleStore false false)
  ∧ LacksValidKey (sampleStore false false) (authHeader inactiveBearer)
  ∧ untouched blank = true
  ∧ calls (app sampleLocale 1000 sampleEnv streamingBackend alternating
               (sampleStore false false) inactiveBearer blank).2 = []
  ∧ statusCode (reply (app sampleLocale 1000 sampleEnv streamingBackend
                           alternating (sampleStore false false)
                           inactiveBearer blank).2) = 401.
Proof.
  assert (uniqueKeys (sampleStore false false)) as Huniq.
  { unfold uniqueKeys. simpl. apply NoDup_singleton. }
  assert (LacksValidKey (sampleStore false false) (authHeader inactiveBearer))
    as Hlack.
  { apply (inactive_key _ _ (sampleKey false)); [reflexivity| |reflexivity..].
    simpl. apply list_elem_of_singleton. reflexivity. }
  split; [exact Huniq|]. split; [exact Hlack|]. split; [reflexivity|].
  pose proof (unauthorized_never_reaches_backend sampleLocale 1000 sampleEnv
                streamingBackend alternating (sampleStore false false)
                inactiveBearer blank Huniq Hlack eq_refl) as H.
  split; [apply H|]. exact (proj1 (proj2 (proj2 (proj2 (proj2 H))))).
Defined.

(** A request without an Authorization header whose body is not JSON: the
    body parser answers 400 before the key check runs, so a request that
    lacks a valid key is not always answered 401. *)
Lemma refused_body_precedes_key_check :
  let out := app sampleLocale 1000 sampleEnv streamingBackend alternating
                 (sampleStore true false) malformed blank in
  authHeader malformed = None
  ∧ statusCode (reply out.2) = 400
  ∧ statusCode (reply out.2) ≠ 401
  ∧ jsonBody (reply out.2) = None
  ∧ calls out.2 = [].
Proof. by vm_compute. Qed.

(** ** C3: the last-used update is awaited *)

(** C3, as the code has it. For a request whose token has an active record,
    the middleware awaits the write of the current time as the record's
    last-used timestamp: when the write succeeds the request goes on to the
    handler with the timestamp recorded; when the write fails the request is
    answered 500 and the handler is not reached. *)
Theorem usage_update_awaited
    (locale : Zod) (now : Z) (env : Env)
    (backend : Backend) (sock : Socket) (db : Prisma) (req : Request)
    (res0 : Response) (h : string) (k : ApiKey) :
  authorization req = Some h →
  startsWith "Bearer " h = true →
  findUnique (substringFrom 7 h) db = Ok (Some k) →
  isActive k = true →
  match update (id k) now db with
  | Ok db' =>
      postChat locale now env backend sock db req res0
      = (db', chatHandler locale env backend sock (reqJson req) res0)
      ∧ ∀ r, r ∈ apiKeys db' → id r = id k → lastUsedAt r = Some now
  | Throw _ =>
      postChat locale now env backend sock db req res0
      = (db, mkOutcome [] (Settled (session
               (json_ (errorBody "Internal server error") (status 500 res0)))))
  end.
Proof.
  intros Hauth Hscheme Hfind Hactive. unfold postChat, validateApiKey.
  rewrite Hauth, Hscheme, Hfind, Hactive.
  assert (truthy (Some h) = true) as ->.
  { destruct h; [discriminate Hscheme|done]. }
  simpl. unfold update. destruct (updateFails db); [done|].
  destruct (existsb _ _); [|done]. split; [done|]. simpl.
  intros r Hr Hid. apply list_elem_of_fmap in Hr as (r' & -> & _).
  destruct (id r' =? id k) eqn:Heq; [done|].
  simpl in Hid. apply Z.eqb_neq in Heq. contradiction.
Qed.

Lemma usage_update_awaited_witness :
  postChat sampleLocale 1000 sampleEnv streamingBackend alternating
           (sampleStore true true) bearer blank
  = (sampleStore true true,
     mkOutcome [] (Settled (session
        (json_ (errorBody "Internal server error") (status 500 blank))))).
Proof.
  exact (usage_update_awaited sampleLocale 1000 sampleEnv streamingBackend
           alternating (sampleStore true true) bearer blank
           "Bearer abc123" (sampleKey true) eq_refl eq_refl eq_refl eq_refl).
Defined.

(** With an active key and a store whose update fails, the request is
    answered 500 and no backend call is made, whereas the same request with
    a working update is relayed. *)
Lemma usage_update_failure_fails_request :
  let failing := postChat sampleLocale 1000 sampleEnv streamingBackend
                          alternating (sampleStore true true) bearer blank in
  let working := postChat sampleLocale 1000 sampleEnv streamingBackend
                          alternating (sampleStore true false) bearer blank in
  statusCode (reply failing.2) = 500 ∧ calls failing.2 = []
  ∧ statusCode (reply working.2) = 200 ∧ length (calls working.2) = 1%nat.
Proof. vm_compute. done. Qed.

(** * The validator *)

Section Validator.

Variable locale : Zod.

Lemma parseRole_spec (v : option json) :
  match parseRole locale v with
  | inr r => v = Some (JStr (roleText r))
  | inl l => ¬ isRole v ∧ ∃ issue, l = [issue] ∧ path issue = []
  end.
Proof.
  unfold parseRole, isRole.
  destruct v as [[| | |s| |]|]; simpl;
    try (split; [naive_solver|eexists; by split]).
  destruct (String.eqb_spec s "system") as [->|H1]; [done|].
  destruct (String.eqb_spec s "user") as [->|H2]; [done|].
  destruct (String.eqb_spec s "assistant") as [->|H3]; [done|].
  split; [naive_solver|eexists; by split].
Qed.

Lemma parseContent_spec (v : option json) :
  match parseContent locale v with
  | inr s => v = Some (JStr s) ∧ s ≠ ""
  | inl l => ¬ isText v ∧ l ≠ [] ∧ Forall (λ i, path i = []) l
  end.
Proof.
  unfold parseContent, isText.
  destruct v as [[| | |s| |]|]; simpl;
    try (split; [naive_solver|]; split; [done|];
         destruct (below locale 1 _); by repeat constructor).
  destruct s; simpl; [|done].
  split; [naive_solver|]. split; [done|]. by repeat constructor.
Qed.

(** Issues that all sit at the value's own path. *)
Lemma own_paths (l : list Issue) (q : list PathSeg) :
  l ≠ [] → Forall (λ i, path i = []) l → q ∈ path <$> l ↔ q = [].
Proof.
  intros Hne Hall. rewrite list_elem_of_fmap. split.
  - intros (i & -> & Hi). by apply (proj1 (Forall_forall _ _) Hall).
  - intros ->. destruct l as [|i l]; [done|]. exists i. split; [|left].
    symmetry. by apply (Forall_inv Hall).
Qed.

Lemma issuePaths_under {A} (seg : PathSeg) (p : Parsed A) :
  issuePaths (under seg p) = (seg ::.) <$> issuePaths p.
Proof.
  unfold issuePaths, under, prefixIssues. destruct p as [l|a]; simpl; [|done].
  induction l as [|i l IH]; simpl; [done|]. by f_equal.
Qed.

Lemma issuePaths_both {A B} (a : Parsed A) (b : Parsed B) :
  issuePaths (both a b) = issuePaths a ++ issuePaths b.
Proof.
  unfold issuePaths, both. destruct a, b; simpl; by rewrite ?fmap_app, ?app_nil_r.
Qed.

Lemma both_inr {A B} (a : Parsed A) (b : Parsed B) x y :
  both a b = inr (x, y) ↔ a = inr x ∧ b = inr y.
Proof. unfold both. destruct a, b; naive_solver. Qed.

Lemma reports_under {A} (seg : PathSeg) (p : Parsed A) :
  reportsSomething p → reportsSomething (under seg p).
Proof.
  unfold reportsSomething, under, prefixIssues. destruct p as [l|a]; [|done].
  intros H issues [= <-]. specialize (H l eq_refl). by destruct l.
Qed.

Lemma reports_both {A B} (a : Parsed A) (b : Parsed B) :
  reportsSomething a → reportsSomething b → reportsSomething (both a b).
Proof.
  unfold reportsSomething, both. intros Ha Hb issues.
  destruct a as [la|x], b as [lb|y]; simpl; intros [= <-].
  - specialize (Ha la eq_refl). by destruct la.
  - specialize (Ha la eq_refl). by destruct la.
  - by apply Hb.
Qed.

Lemma parseRole_paths (v : option json) (q : list PathSeg) :
  q ∈ issuePaths (parseRole locale v) ↔ q = [] ∧ ¬ isRole v.
Proof.
  pose proof (parseRole_spec v) as H. unfold issuePaths.
  destruct (parseRole locale v) as [l|r]; simpl.
  - destruct H as (Hbad & issue & -> & Hp). simpl. rewrite Hp.
    rewrite list_elem_of_singleton. naive_solver.
  - split; [by intros []%elem_of_nil|]. intros [_ Hbad]. exfalso. apply Hbad.
    unfold isRole. rewrite H. destruct r; simpl; auto.
Qed.

Lemma parseContent_paths (v : option json) (q : list PathSeg) :
  q ∈ issuePaths (parseContent locale v) ↔ q = [] ∧ ¬ isText v.
Proof.
  pose proof (parseContent_spec v) as H. unfold issuePaths.
  destruct (parseContent locale v) as [l|s]; simpl.
  - destruct H as (Hbad & Hne & Hall). rewrite (own_paths l q Hne Hall).
    naive_solver.
  - split; [by intros []%elem_of_nil|]. intros [_ Hbad]. exfalso. apply Hbad.
    destruct H as [-> Hs]. unfold isText. eauto.
Qed.

Lemma parseMessage_valid (item : json) :
  (∃ m, parseMessage locale (Some item) = inr m) ↔ validMessage item.
Proof.
  unfold parseMessage, validMessage.
  destruct item as [| | | | |fields];
    try (split; [by intros [? ?]|by intros (? & ? & _)]).
  pose proof (parseRole_spec (getField "role" fields)) as Hr.
  pose proof (parseContent_spec (getField "content" fields)) as Hc.
  destruct (parseRole locale _) as [lr|r], (parseContent locale _) as [lc|c]; simpl.
  - split; [by intros [? ?]|]. intros (? & [= <-] & ? & _). naive_solver.
  - split; [by intros [? ?]|]. intros (? & [= <-] & ? & _). naive_solver.
  - split; [by intros [? ?]|]. intros (? & [= <-] & _ & ?). naive_solver.
  - split; [|by eauto]. intros _. exists fields. split; [done|].
    destruct Hc as [Hc Hne]. split.
    + unfold isRole. rewrite Hr. destruct r; simpl; auto.
    + unfold isText. eauto.
Qed.

Lemma parseMessage_reports (item : json) :
  reportsSomething (parseMessage locale (Some item)).
Proof.
  unfold parseMessage. destruct item as [| | | | |fields];
    try (by intros issues [= <-]).
  pose proof (parseRole_spec (getField "role" fields)) as Hr.
  pose proof (parseContent_spec (getField "content" fields)) as Hc.
  destruct (parseRole locale _) as [lr|r], (parseContent locale _) as [lc|c];
    simpl; intros issues [= <-].
  - destruct Hr as (_ & ? & -> & _). done.
  - destruct Hr as (_ & ? & -> & _). done.
  - destruct Hc as (_ & Hne & _). by destruct lc.
Qed.

Lemma issuePaths_message (fields : list (string * json)) :
  issuePaths (parseMessage locale (Some (JObj fields)))
  = ((Key "role" ::.) <$> issuePaths (parseRole locale (getField "role" fields)))
    ++ ((Key "content" ::.)
          <$> issuePaths (parseContent locale (getField "content" fields))).
Proof.
  unfold parseMessage. rewrite <- !issuePaths_under, <- issuePaths_both.
  by destruct (both _ _) as [l|[r c]].
Qed.

Lemma parseMessage_paths (item : json) (q : list PathSeg) :
  q ∈ issuePaths (parseMessage locale (Some item)) ↔ ViolatesMessage item q.
Proof.
  destruct item as [| | | | |fields].
  1-5: unfold parseMessage, issuePaths; simpl;
       rewrite list_elem_of_singleton; split;
       [intros ->; by constructor|by inversion 1].
  rewrite issuePaths_message, elem_of_app, !list_elem_of_fmap.
  setoid_rewrite parseRole_paths. setoid_rewrite parseContent_paths. split.
  - intros [(q' & -> & -> & Hbad)|(q' & -> & -> & Hbad)].
    + by eapply role_not_listed.
    + by eapply content_not_text.
  - inversion 1 as [Hno|? [= <-] Hbad|? [= <-] Hbad].
    + by specialize (Hno fields).
    + left. by exists [].
    + right. by exists [].
Qed.

Lemma parseItems_issues (i : nat) (item : json) (rest : list json) :
  (parseItems locale i (item :: rest)).1
  = issuesOf (under (Index i) (parseMessage locale (Some item)))
    ++ (parseItems locale (S i) rest).1.
Proof.
  simpl. destruct (parseItems locale (S i) rest) as [issues ms].
  by destruct (under _ _).
Qed.

Lemma parseItems_paths (items : list json) :
  ∀ i q,
    q ∈ path <$> (parseItems locale i items).1
    ↔ ∃ j item q', items !! j = Some item ∧ ViolatesMessage item q'
                   ∧ q = Index (i + j) :: q'.
Proof.
  induction items as [|item rest IH]; intros i q.
  - simpl. split; [by intros []%elem_of_nil|]. by intros (j & ? & ? & ? & _).
  - rewrite parseItems_issues, fmap_app, elem_of_app, IH.
    change (path <$> issuesOf ?p) with (issuePaths p).
    rewrite issuePaths_under, list_elem_of_fmap.
    setoid_rewrite parseMessage_paths. split.
    + intros [(q' & -> & Hq')|(j & it & q' & Hj & Hv & ->)].
      * exists 0%nat, item, q'. by rewrite Nat.add_0_r.
      * exists (S j), it, q'. by rewrite Nat.add_succ_r.
    + intros ([|j] & it & q' & Hj & Hv & ->); simpl in Hj.
      * left. injection Hj as ->. exists q'. by rewrite Nat.add_0_r.
      * right. exists j, it, q'. by rewrite Nat.add_succ_r.
Qed.

Lemma parseItems_clean (items : list json) :
  ∀ i, (parseItems locale i items).1 = [] ↔ Forall validMessage items.
Proof.
  induction items as [|item rest IH]; intros i.
  - simpl. split; [by constructor|done].
  - rewrite parseItems_issues, Forall_cons, <- IH, <- parseMessage_valid.
    pose proof (parseMessage_reports item) as Hrep.
    destruct (parseMessage locale (Some item)) as [l|m]; simpl.
    + specialize (Hrep l eq_refl). split.
      * intros [Hl _]%app_nil. by destruct l.
      * by intros [[? ?] _].
    + split; [eauto|by intros [_ ?]].
Qed.

Lemma issuesOf_nonempty {A} (l : list Issue) (a : A) :
  issuesOf (match l with [] => inr a | _ :: _ => inl l end) = l.
Proof. by destruct l. Qed.

Lemma parseMessages_array (items : list json) :
  issuesOf (parseMessages locale (Some (JArr items))) = arrayIssues locale items
  ∧ ((∃ ms, parseMessages locale (Some (JArr items)) = inr ms)
     ↔ arrayIssues locale items = []).
Proof.
  unfold parseMessages, arrayIssues.
  destruct (parseItems locale 0 items) as [issues ms]. simpl.
  rewrite issuesOf_nonempty. split; [done|].
  destruct (match arrayChecks locale with
            | AfterElements => _ | BeforeElements => _ | InsteadOfElements => _
            end); [|split; [by intros [? ?]|done]].
  split; [done|eauto].
Qed.

Lemma arrayIssues_nil (items : list json) :
  arrayIssues locale items = []
  ↔ (1 ≤ length items ≤ 100)%nat ∧ Forall validMessage items.
Proof.
  unfold arrayIssues. rewrite <- (parseItems_clean items 0).
  destruct (parseItems locale 0 items).1 as [|i issues];
    destruct (Nat.ltb_spec (length items) 1), (Nat.ltb_spec 100 (length items)),
      (arrayChecks locale); simpl; split; try done; try lia;
    try (by intros [? ?]); try (intros [? _]; lia).
Qed.

Lemma arrayIssues_paths (items : list json) (q : list PathSeg) :
  q ∈ path <$> arrayIssues locale items →
  (q = [] ∧ ¬ (1 ≤ length items ≤ 100)%nat)
  ∨ q ∈ path <$> (parseItems locale 0 items).1.
Proof.
  unfold arrayIssues.
  destruct (Nat.ltb_spec (length items) 1), (Nat.ltb_spec 100 (length items)),
    (arrayChecks locale); simpl;
    rewrite ?fmap_app, ?elem_of_app, ?app_nil_r; simpl;
    rewrite ?list_elem_of_singleton, ?elem_of_cons, ?elem_of_nil;
    intros Hq; try (right; exact Hq);
    repeat match goal with Hd : _ ∨ _ |- _ => destruct Hd end;
    subst; try done; try (by right); try (left; split; [done|lia]).
Qed.

Lemma arrayIssues_length (items : list json) :
  ¬ (1 ≤ length items ≤ 100)%nat → [] ∈ path <$> arrayIssues locale items.
Proof.
  unfold arrayIssues. intros Hlen.
  destruct (Nat.ltb_spec (length items) 1), (Nat.ltb_spec 100 (length items)),
    (arrayChecks locale); simpl; try lia;
    rewrite ?fmap_app, ?elem_of_app; simpl;
    rewrite ?elem_of_cons; auto.
Qed.

Lemma arrayIssues_elements (items : list json) (q : list PathSeg) :
  q ∈ path <$> (parseItems locale 0 items).1 →
  q ∈ path <$> arrayIssues locale items
  ∨ (arrayChecks locale = InsteadOfElements ∧ (100 < length items)%nat).
Proof.
  unfold arrayIssues. intros Hq.
  destruct (Nat.ltb_spec 100 (length items)), (arrayChecks locale);
    rewrite ?fmap_app, ?elem_of_app; auto.
Qed.

Lemma parseMessages_valid (v : option json) :
  (∃ ms, parseMessages locale v = inr ms) ↔ validMessages v.
Proof.
  unfold validMessages.
  destruct v as [[| | | |items|]|];
    try (split; [by intros [? ?]|by intros (? & ? & _)]).
  rewrite (proj2 (parseMessages_array items)), arrayIssues_nil. split.
  - intros [? ?]. by exists items.
  - by intros (? & [= <-] & ? & ?).
Qed.

Lemma parseMessages_reports (v : option json) :
  reportsSomething (parseMessages locale v).
Proof.
  unfold parseMessages.
  destruct v as [[| | | |items|]|]; try (by intros issues [= <-]).
  destruct (parseItems locale 0 items) as [issues ms].
  destruct (match arrayChecks locale with
            | AfterElements => _ | BeforeElements => _ | InsteadOfElements => _
            end); by intros ? [= <-].
Qed.

Lemma parseMessages_other (v : option json) (q : list PathSeg) :
  (∀ items, v ≠ Some (JArr items)) →
  q ∈ issuePaths (parseMessages locale v) ↔ q = [].
Proof.
  intros Hno. unfold issuePaths, parseMessages.
  destruct v as [[| | | |items|]|]; [..|by specialize (Hno items)| |];
    cbn [issuesOf]; apply own_paths; try done;
    destruct (below locale 1 _), (above locale 100 _); by repeat constructor.
Qed.

Lemma parseMessages_sound (v : option json) (q : list PathSeg) :
  q ∈ issuePaths (parseMessages locale v) → ViolatesMessages v q.
Proof.
  destruct (v) as [[| | | |items|]|] eqn:Hv.
  1-4,6-7: intros ->%parseMessages_other; [by constructor|done].
  unfold issuePaths. rewrite (proj1 (parseMessages_array items)).
  intros [[-> Hlen]|Hq]%arrayIssues_paths.
  - by eapply messages_length.
  - apply parseItems_paths in Hq as (j & it & q' & Hj & Hbad & ->).
    by eapply messages_item.
Qed.

Lemma parseMessages_complete (v : option json) (q : list PathSeg) :
  ViolatesMessages v q →
  q ∈ issuePaths (parseMessages locale v)
  ∨ (arrayChecks locale = InsteadOfElements
     ∧ ∃ items j q', v = Some (JArr items) ∧ (100 < length items)%nat
                     ∧ q = Index j :: q').
Proof.
  inversion 1 as [Hno|items -> Hlen|items j it q' -> Hj Hbad].
  - left. by apply parseMessages_other.
  - left. unfold issuePaths. rewrite (proj1 (parseMessages_array items)).
    by apply arrayIssues_length.
  - unfold issuePaths. rewrite (proj1 (parseMessages_array items)).
    destruct (arrayIssues_elements items (Index j :: q')) as [?|[? ?]].
    + apply parseItems_paths. by exists j, it, q'.
    + by left.
    + right. split; [done|]. by exists items, j, q'.
Qed.

Lemma parseStream_valid (v : option json) :
  (∃ b, parseStream locale v = inr b) ↔ validStream v.
Proof.
  unfold parseStream, validStream.
  destruct v as [[| | | | |]|]; naive_solver.
Qed.

Lemma parseStream_reports (v : option json) :
  reportsSomething (parseStream locale v).
Proof.
  unfold parseStream. destruct v as [[| | | | |]|]; by intros ? [= <-].
Qed.

Lemma parseStream_paths (v : option json) (q : list PathSeg) :
  q ∈ issuePaths (parseStream locale v) ↔ q = [] ∧ ¬ validStream v.
Proof.
  unfold parseStream, issuePaths, validStream.
  destruct v as [[| | | | |]|]; simpl;
    rewrite ?list_elem_of_singleton, ?elem_of_nil; naive_solver.
Qed.

Lemma safeParse_valid (body : option json) :
  (∃ data, safeParse locale body = inr data) ↔ validBody body.
Proof.
  unfold safeParse, validBody.
  destruct body as [[| | | | |fields]|];
    try (split; [by intros [? ?]|by intros (? & ? & _)]).
  pose proof (parseMessages_valid (getField "messages" fields)) as Hm.
  pose proof (parseStream_valid (getField "stream" fields)) as Hs.
  destruct (parseMessages locale _) as [lm|ms], (parseStream locale _) as [ls|st];
    simpl.
  - split; [by intros [? ?]|]. intros (? & [= <-] & [? ?]%Hm & _). done.
  - split; [by intros [? ?]|]. intros (? & [= <-] & [? ?]%Hm & _). done.
  - split; [by intros [? ?]|]. intros (? & [= <-] & _ & [? ?]%Hs). done.
  - split; [|by eauto]. intros _. exists fields. split; [done|].
    split; [apply Hm|apply Hs]; eauto.
Qed.

Lemma safeParse_stream (fields : list (string * json)) (data : ChatRequest) :
  safeParse locale (Some (JObj fields)) = inr data →
  stream data = match getField "stream" fields with
                | Some (JBool b) => b
                | _ => false
                end.
Proof.
  unfold safeParse, parseStream.
  destruct (parseMessages locale _) as [lm|ms]; simpl.
  - by destruct (getField "stream" fields) as [[| | | | |]|].
  - destruct (getField "stream" fields) as [[| | | | |]|]; simpl;
      by intros [= <-].
Qed.

Lemma safeParse_reports (body : option json) :
  reportsSomething (safeParse locale body).
Proof.
  unfold safeParse. destruct body as [[| | | | |fields]|];
    try (by intros ? [= <-]).
  pose proof (reports_both _ _
    (reports_under (Key "messages") _ (parseMessages_reports (getField "messages" fields)))
    (reports_under (Key "stream") _ (parseStream_reports (getField "stream" fields))))
    as Hrep.
  destruct (both _ _) as [l|[ms st]]; [|done].
  intros ? [= <-]. by apply Hrep.
Qed.

Lemma issuePaths_safeParse (fields : list (string * json)) :
  issuePaths (safeParse locale (Some (JObj fields)))
  = ((Key "messages" ::.)
       <$> issuePaths (parseMessages locale (getField "messages" fields)))
    ++ ((Key "stream" ::.)
          <$> issuePaths (parseStream locale (getField "stream" fields))).
Proof.
  unfold safeParse. rewrite <- !issuePaths_under, <- issuePaths_both.
  by destruct (both _ _) as [l|[ms st]].
Qed.

Lemma safeParse_sound (body : option json) (q : list PathSeg) :
  q ∈ issuePaths (safeParse locale body) → Violates body q.
Proof.
  destruct body as [[| | | | |fields]|].
  1-5,7: unfold safeParse, issuePaths; simpl;
         intros ->%list_elem_of_singleton; by constructor.
  rewrite issuePaths_safeParse, elem_of_app, !list_elem_of_fmap.
  setoid_rewrite parseStream_paths.
  intros [(q' & -> & Hq'%parseMessages_sound)|(q' & -> & -> & Hbad)].
  - by eapply in_messages.
  - by eapply in_stream.
Qed.

Lemma safeParse_complete (body : option json) (q : list PathSeg) :
  Violates body q →
  q ∈ issuePaths (safeParse locale body)
  ∨ (arrayChecks locale = InsteadOfElements ∧ inOverlongArray body q).
Proof.
  inversion 1 as [Hno|fields q' -> Hq'|fields -> Hbad].
  - left. destruct body as [[| | | | |fields]|];
      [..|by specialize (Hno fields)|];
      unfold safeParse, issuePaths; simpl; by left.
  - rewrite issuePaths_safeParse, elem_of_app, !list_elem_of_fmap.
    apply parseMessages_complete in Hq'
      as [Hin|(Hpol & items & j & q'' & Hm & Hlen & ->)].
    + left. left. by exists q'.
    + right. split; [done|]. by exists fields, items, j, q''.
  - left. rewrite issuePaths_safeParse, elem_of_app, !list_elem_of_fmap.
    right. exists []. split; [done|]. by apply parseStream_paths.
Qed.

Lemma joinPath_dotted (q : list PathSeg) : joinPath q = dotted q.
Proof.
  unfold joinPath. induction q as [|seg rest IH]; [done|].
  cbn [map String.concat dotted]. rewrite <- IH.
  destruct rest as [|seg' rest]; [by destruct seg|].
  cbn [map]. by destruct seg.
Qed.

Lemma detail_detailOf (issue : Issue) :
  detail issue = detailOf (path issue) (message issue).
Proof. unfold detail, detailOf. by rewrite joinPath_dotted. Qed.

End Validator.

(** ** C6: validation *)

(** C6, as the code has it. Validation succeeds exactly when [messages] is
    an array of 1 to 100 elements, each an object with a role among system,
    user and assistant and a non-empty string content, and [stream] is
    absent or a boolean (absent reads as [false]). Otherwise the handler
    answers 400 and makes no backend call; the body is
    [{error: 'Validation failed', details}] where [details] is not empty,
    every entry is a [{field, message}] that names, by its dotted path, a
    field that violates the contract, and every violating field has an
    entry, except that the fields inside the elements of a [messages] array
    of more than 100 elements may be left out. They are left out only by a
    zod that does not parse the elements of an array that is too long. *)
Theorem chat_validation
    (locale : Zod) (env : Env)
    (backend : Backend) (sock : Socket) (body : option json) (res0 : Response) :
  let parsed := safeParse locale body in
  let o := chatHandler locale env backend sock body res0 in
  ((∃ data, parsed = inr data) ↔ validBody body)
  ∧ (∀ fields data,
        body = Some (JObj fields) → parsed = inr data →
        stream data = match getField "stream" fields with
                      | Some (JBool b) => b
                      | _ => false
                      end)
  ∧ (¬ validBody body →
       statusCode (reply o) = 400
       ∧ calls o = []
       ∧ ∃ ds, jsonBody (reply o)
               = Some (JObj [("error", JStr "Validation failed");
                             ("details", JArr ds)])
               ∧ ds ≠ []
               ∧ (∀ d, d ∈ ds →
                       ∃ q msg, d = JObj [("field", JStr (dotted q));
                                          ("message", JStr msg)]
                                ∧ Violates body q)
               ∧ (∀ q, Violates body q →
                       (∃ msg, JObj [("field", JStr (dotted q));
                                     ("message", JStr msg)] ∈ ds)
                       ∨ inOverlongArray body q)
               ∧ (arrayChecks locale ≠ InsteadOfElements →
                  ∀ q, Violates body q →
                       ∃ msg, JObj [("field", JStr (dotted q));
                                    ("message", JStr msg)] ∈ ds)).
Proof.
  simpl. split; [apply safeParse_valid|].
  split; [intros fields data ->; apply safeParse_stream|].
  intros Hbad. unfold chatHandler, reply.
  pose proof (safeParse_reports locale body) as Hrep.
  pose proof (safeParse_sound locale body) as Hsound.
  pose proof (safeParse_complete locale body) as Hcomplete.
  unfold issuePaths in Hsound, Hcomplete.
  destruct (safeParse locale body) as [issues|data] eqn:Hparse.
  - simpl in *. split; [done|]. split; [done|].
    exists (detail <$> issues). split; [done|].
    assert (∀ q, q ∈ path <$> issues →
                 ∃ msg, JObj [("field", JStr (dotted q)); ("message", JStr msg)]
                        ∈ detail <$> issues) as Hentry.
    { intros q (issue & -> & Hin)%list_elem_of_fmap. exists (message issue).
      apply list_elem_of_fmap. exists issue. split; [|done].
      symmetry. apply detail_detailOf. }
    split; [|split; [|split]].
    + specialize (Hrep issues eq_refl). by destruct issues.
    + intros d (issue & -> & Hin)%list_elem_of_fmap.
      exists (path issue), (message issue). split; [apply detail_detailOf|].
      apply Hsound. apply list_elem_of_fmap. by exists issue.
    + intros q [Hin|[_ Hhidden]]%Hcomplete; [left; by apply Hentry|by right].
    + intros Hpol q [Hin|[Habs _]]%Hcomplete; [by apply Hentry|done].
  - exfalso. apply Hbad. apply (safeParse_valid locale). rewrite Hparse. eauto.
Qed.

Lemma chat_validation_witness :
  ¬ validBody sloppyBody
  ∧ statusCode (reply (chatHandler sampleLocale sampleEnv streamingBackend
                         alternating sloppyBody blank)) = 400
  ∧ calls (chatHandler sampleLocale sampleEnv streamingBackend
             alternating sloppyBody blank) = [].
Proof.
  pose proof (chat_validation sampleLocale sampleEnv streamingBackend
                alternating sloppyBody blank) as (Hvalid & _ & Hfail).
  assert (¬ validBody sloppyBody) as Hbad.
  { intros [data Hdata]%Hvalid. discriminate Hdata. }
  split; [exact Hbad|]. destruct (Hfail Hbad) as (H400 & Hcalls & _).
  split; [exact H400|exact Hcalls].
Defined.

(** With a zod that does not parse the elements of an array that is too
    long, a body of 101 messages whose first has an empty content is
    answered with the one entry for [messages]: the violating field
    [messages.0.content] is not listed. *)
Lemma overlong_array_hides_fields :
  Violates crowdedBody [Key "messages"; Index 0; Key "content"]
  ∧ jsonBody (reply (chatHandler sampleLocale sampleEnv streamingBackend
                       alternating crowdedBody blank))
    = Some (JObj [("error", JStr "Validation failed");
                  ("details",
                   JArr [JObj [("field", JStr "messages");
                               ("message", JStr "Too many messages (max 100)")]])]).
Proof.
  split; [|by vm_compute].
  eapply in_messages; [reflexivity|].
  eapply messages_item; [reflexivity|reflexivity|].
  eapply content_not_text; [reflexivity|].
  intros (s & [= <-] & Hs). by apply Hs.
Qed.

(** All three violations of [sloppyBody] are reported, each under its
    dotted path. *)
Example sloppy_details :
  jsonBody (reply (chatHandler sampleLocale sampleEnv streamingBackend
                     alternating sloppyBody blank))
  = Some (JObj [("error", JStr "Validation failed");
                ("details",
                 JArr [JObj [("field", JStr "messages.0.role");
                             ("message", JStr "Invalid input")];
                       JObj [("field", JStr "messages.0.content");
                             ("message", JStr "Message content cannot be empty")];
                       JObj [("field", JStr "stream");
                             ("message", JStr "Invalid input")]])]).
Proof. reflexivity. Qed.

Example dotted_path :
  joinPath [Key "messages"; Index 12; Key "content"] = "messages.12.content".
Proof. reflexivity. Qed.

(** An empty [messages] is reported under [messages]. *)
Example empty_messages_details :
  jsonBody (reply (chatHandler sampleLocale sampleEnv streamingBackend
                     alternating (Some (JObj [("messages", JArr [])])) blank))
  = Some (JObj [("error", JStr "Validation failed");
                ("details",
                 JArr [JObj [("field", JStr "messages");
                             ("message", JStr "At least one message is required")]])]).
Proof. reflexivity. Qed.

(** A [messages] that is the empty string and a [content] that is the empty
    array get the type issue and the issue of the length check. *)
Example wrong_kind_with_length :
  jsonBody (reply (chatHandler sampleLocale sampleEnv streamingBackend
                     alternating (Some (JObj [("messages", JStr "")])) blank))
  = Some (JObj [("error", JStr "Validation failed");
                ("details",
                 JArr [JObj [("field", JStr "messages");
                             ("message", JStr "Invalid input")];
                       JObj [("field", JStr "messages");
                             ("message", JStr "At least one message is required")]])])
  ∧ jsonBody (reply (chatHandler sampleLocale sampleEnv streamingBackend
                       alternating
                       (Some (JObj [("messages",
                                     JArr [JObj [("role", JStr "user");
                                                 ("content", JArr [])]])]))
                       blank))
    = Some (JObj [("error", JStr "Validation failed");
                  ("details",
                   JArr [JObj [("field", JStr "messages.0.content");
                               ("message", JStr "Invalid input")];
                         JObj [("field", JStr "messages.0.content");
                               ("message", JStr "Message content cannot be empty")]])]).
Proof. split; reflexivity. Qed.

(** * The backend call *)

(** ** C7: an aborted call is not a failed call *)


(** A refused connection, for comparison. *)
Example refused_is_502 :
  let o := chatHandler sampleLocale sampleEnv (λ _, Rejects connectionRefused)
                       alternating hiBody blank in
  statusCode (reply o) = 502
  ∧ jsonBody (reply o) = Some (JObj [("error", JStr "Failed to connect to Ollama")]).
Proof. by vm_compute. Qed.

Example aborted_fetch_is_499 :
  let o := chatHandler sampleLocale sampleEnv (λ _, Rejects abortError)
                       alternating hiBody blank in
  statusCode (reply o) = 499 ∧ jsonBody (reply o) = None
  ∧ writableEnded (reply o) = true.
Proof. by vm_compute. Qed.




(** ** C8: the header allow-list *)

Lemma truthy_nonempty (v : string) : truthy (Some v) = negb (String.eqb v "").
Proof. by destruct v. Qed.

Lemma forwardHeader_lookup (response : BackendResponse) (r : Response)
    (x h : string) :
  lowerName x = x →
  resHeaders (forwardHeader response r x) !! h
  = if decide (h = x)
    then match forwardable response x with
         | Some v => Some v
         | None => resHeaders r !! h
         end
    else resHeaders r !! h.
Proof.
  intros Hx. unfold forwardHeader, forwardable, get. rewrite Hx.
  destruct (respHeaders response !! x) as [v|]; [|by case_decide].
  rewrite truthy_nonempty. destruct (String.eqb v ""); simpl; [by case_decide|].
  rewrite Hx. case_decide as Hh.
  - subst. by rewrite lookup_insert_eq.
  - by rewrite lookup_insert_ne.
Qed.

Lemma forward_fold_lookup (response : BackendResponse) (hs : list string)
    (h : string) :
  Forall (λ x, lowerName x = x) hs →
  ∀ r, resHeaders (fold_left (forwardHeader response) hs r) !! h
       = if bool_decide (h ∈ hs)
         then match forwardable response h with
              | Some v => Some v
              | None => resHeaders r !! h
              end
         else resHeaders r !! h.
Proof.
  induction 1 as [|x hs Hx _ IH]; intros r; simpl; [done|].
  rewrite IH, (forwardHeader_lookup _ _ _ _ Hx).
  destruct (decide (h = x)) as [->|Hne].
  - rewrite (bool_decide_eq_true_2 (x ∈ x :: hs)) by left.
    case_bool_decide; by destruct (forwardable response x).
  - case_bool_decide as Hin.
    + by rewrite bool_decide_eq_true_2 by by right.
    + rewrite bool_decide_eq_false_2; [done|].
      by intros [?|?]%elem_of_cons.
Qed.

Lemma forwardHeaders_lookup (response : BackendResponse) (r : Response)
    (h : string) :
  resHeaders (forwardHeaders response r) !! h
  = if bool_decide (h ∈ headersToForward)
    then match forwardable response h with
         | Some v => Some v
         | None => resHeaders r !! h
         end
    else resHeaders r !! h.
Proof.
  apply forward_fold_lookup. unfold headersToForward.
  repeat (constructor; [reflexivity|]). constructor.
Qed.

Lemma relayLoop_express (sock : Socket) (src : ReaderScript) :
  ∀ n s, express (res (relayLoop sock n src s).2) = express (res s).
Proof.
  induction src as [| | |c rest IH]; intros n s; simpl; try done.
  destruct (sock n) as [|[|]|]; simpl; try done; by rewrite IH.
Qed.

Lemma forwardHeaders_express (response : BackendResponse) (r : Response) :
  express (forwardHeaders response r) = express r.
Proof.
  unfold forwardHeaders. generalize headersToForward. intros hs. revert r.
  induction hs as [|h hs IH]; intros r; simpl; [done|].
  rewrite IH. unfold forwardHeader. destruct (get h response) as [v|]; [|done].
  by destruct (truthy (Some v)).
Qed.

(** [res.json] touches three headers. *)
Lemma jsonHeaders_other (obj : json) (r : Response) (h : string) :
  h ≠ "content-type" → h ≠ "content-length" → h ≠ "etag" →
  jsonHeaders obj r !! h = resHeaders r !! h.
Proof.
  intros H1 H2 H3. unfold jsonHeaders. cbv zeta.
  set (hs1 := if truthy (resHeaders r !! "content-type") then resHeaders r
              else <["content-type" := _]> (resHeaders r)).
  assert (hs1 !! h = resHeaders r !! h) as E1.
  { subst hs1. destruct (truthy _); [done|]. by rewrite lookup_insert_ne. }
  set (hs2 := match hs1 !! "content-type" with
              | Some type => <["content-type" := _]> hs1
              | None => hs1
              end).
  assert (hs2 !! h = hs1 !! h) as E2.
  { subst hs2. destruct (hs1 !! "content-type"); [|done].
    by rewrite lookup_insert_ne. }
  destruct (negb _); rewrite ?lookup_insert_ne by done; congruence.
Qed.

(** The content type [res.json] leaves: the one that was set, or the JSON
    one, as Express stores it with the charset set. *)
Lemma jsonHeaders_content_type (obj : json) (r : Response) :
  jsonHeaders obj r !! "content-type"
  = Some (contentType (express r)
            (setCharset (express r)
               (match resHeaders r !! "content-type" with
                | Some v => if String.eqb v "" then contentType (express r) "application/json"
                            else v
                | None => contentType (express r) "application/json"
                end))).
Proof.
  unfold jsonHeaders. cbv zeta.
  set (hs1 := if truthy (resHeaders r !! "content-type") then resHeaders r
              else <["content-type" := _]> (resHeaders r)).
  assert (hs1 !! "content-type"
          = Some (match resHeaders r !! "content-type" with
                  | Some v => if String.eqb v "" then contentType (express r) "application/json"
                              else v
                  | None => contentType (express r) "application/json"
                  end)) as E1.
  { subst hs1. destruct (resHeaders r !! "content-type") as [v|] eqn:E.
    - rewrite truthy_nonempty. destruct (String.eqb v ""); simpl; [|done].
      by rewrite lookup_insert_eq.
    - simpl. by rewrite lookup_insert_eq. }
  rewrite E1.
  destruct (negb _); rewrite ?lookup_insert_ne by done;
    by rewrite lookup_insert_eq.
Qed.

(** The relay leaves the headers as they are, unless it sends its own error
    body. *)
Lemma readStream_reply (sock : Socket) (src : ReaderScript) (s : Relay) :
  let f := res (stateOf (readStream sock src s)) in
  (resHeaders f = resHeaders (res s) ∧ jsonBody f = jsonBody (res s))
  ∨ (resHeaders f = jsonHeaders streamErrorBody (res s)
     ∧ jsonBody f = Some (JObj [("error", JStr "Error streaming response")])).
Proof.
  unfold readStream.
  destruct (relayLoop_frame sock src 0%nat s) as (_ & Hh & Hj & _).
  pose proof (relayLoop_express sock src 0%nat s) as Hx.
  destruct (relayLoop sock 0 src s) as [[| |] s']; simpl in *;
    try (left; by rewrite Hh, Hj).
  destruct (headersSent (res s')); simpl; [left; by rewrite Hh, Hj|].
  right. split; [|done]. unfold jsonHeaders. simpl. by rewrite Hx, Hh.
Qed.

Lemma chatHandler_reply
    (locale : Zod) (env : Env)
    (backend : Backend) (sock : Socket) (body : option json) (res0 : Response)
    (data : ChatRequest) (response : BackendResponse) :
  safeParse locale body = inr data →
  backend (backendCall env data) = Resolves response →
  let o := chatHandler locale env backend sock body res0 in
  let own := if stream data then setHeader "X-Accel-Buffering" "no" res0
             else res0 in
  let forwarded := forwardHeaders response (status (respStatus response) own) in
  express forwarded = express res0
  ∧ ((resHeaders (reply o) = resHeaders forwarded
      ∧ jsonBody (reply o) = jsonBody res0)
     ∨ (resHeaders (reply o) = jsonHeaders streamErrorBody forwarded
        ∧ jsonBody (reply o)
          = Some (JObj [("error", JStr "Error streaming response")]))).
Proof.
  intros Hparse Hfetch. unfold chatHandler, reply. rewrite Hparse, Hfetch.
  assert ((if stream data
           then setHeader "X-Accel-Buffering" "no" (status (respStatus response) res0)
           else status (respStatus response) res0)
          = status (respStatus response)
              (if stream data then setHeader "X-Accel-Buffering" "no" res0 else res0))
    as -> by by destruct (stream data).
  cbv zeta. split.
  { rewrite forwardHeaders_express. by destruct (stream data). }
  set (forwarded := forwardHeaders response _).
  assert (jsonBody forwarded = jsonBody res0) as Hj.
  { subst forwarded.
    destruct (forwardHeaders_frame response
                (status (respStatus response)
                   (if stream data then setHeader "X-Accel-Buffering" "no" res0
                    else res0))) as (_ & _ & _ & -> & _).
    by destruct (stream data). }
  destruct (respBody response) as [src|]; cbn [handler stateOf session res].
  - destruct (readStream_reply sock src (mkRelay forwarded true []))
      as [[H1 H2]|[H1 H2]]; [left|right]; cbn [res] in *; by rewrite ?H1, ?H2.
  - left. by split.
Qed.

Lemma forwardHeaders_agree (response response' : BackendResponse) :
  (∀ h, h ∈ headersToForward →
        respHeaders response' !! h = respHeaders response !! h) →
  ∀ r, forwardHeaders response' r = forwardHeaders response r.
Proof.
  intros Hsame r. unfold forwardHeaders.
  assert (∀ h, h ∈ headersToForward → lowerName h = h) as Hlower.
  { intros h Hin. unfold headersToForward in Hin.
    repeat (apply elem_of_cons in Hin as [->|Hin]; [reflexivity|]).
    by apply elem_of_nil in Hin. }
  revert Hsame Hlower r. generalize headersToForward. intros hs.
  induction hs as [|h hs IH]; intros Hsame Hlower r; simpl; [done|].
  assert (forwardHeader response' r h = forwardHeader response r h) as ->.
  { unfold forwardHeader, get. rewrite (Hlower h) by left.
    by rewrite (Hsame h) by left. }
  apply IH; intros h' Hin; [apply Hsame|apply Hlower]; by right.
Qed.

(** C8, as the code has it. Of the backend's response headers, the four of
    the allow-list ([content-type], [transfer-encoding], [cache-control],
    [content-encoding]) reach the client with the backend's value when they
    are present with a non-empty value; one that is absent or empty is not
    forwarded, the client seeing what the proxy itself set, if anything.
    The one header that can differ is the content type, when the relay
    fails before anything was sent and the proxy answers with its own JSON
    error: Express then stores the forwarded content type with the charset
    set to utf-8. Outside the allow-list the client's headers are the
    proxy's own (with the length and entity tag of that error body), and
    the whole outcome is the same for two backend answers that differ in
    other headers only. *)
Theorem allow_list_forwarding
    (locale : Zod) (env : Env)
    (backend : Backend) (sock : Socket) (body : option json) (res0 : Response)
    (data : ChatRequest) (response : BackendResponse) :
  safeParse locale body = inr data →
  backend (backendCall env data) = Resolves response →
  let o := chatHandler locale env backend sock body res0 in
  let own := if stream data then setHeader "X-Accel-Buffering" "no" res0
             else res0 in
  let allowed :=
    ["content-type"; "transfer-encoding"; "cache-control"; "content-encoding"] in
  let relayFailed :=
    jsonBody (reply o) = Some (JObj [("error", JStr "Error streaming response")]) in
  (∀ h v, h ∈ allowed → respHeaders response !! h = Some v → v ≠ "" →
          resHeaders (reply o) !! h = Some v
          ∨ (h = "content-type" ∧ relayFailed
             ∧ resHeaders (reply o) !! h
               = Some (contentType (express res0) (setCharset (express res0) v))))
  ∧ (∀ h, h ∈ allowed →
          respHeaders response !! h = None ∨ respHeaders response !! h = Some "" →
          resHeaders (reply o) !! h = resHeaders own !! h
          ∨ (h = "content-type" ∧ relayFailed))
  ∧ (∀ h, h ∉ allowed →
          resHeaders (reply o) !! h = resHeaders own !! h
          ∨ ((h = "content-length" ∨ h = "etag") ∧ relayFailed))
  ∧ (∀ backend' response',
       backend' (backendCall env data) = Resolves response' →
       respStatus response' = respStatus response →
       respBody response' = respBody response →
       (∀ h, h ∈ allowed → respHeaders response' !! h = respHeaders response !! h) →
       chatHandler locale env backend' sock body res0 = o).
Proof.
  intros Hparse Hfetch o own allowed relayFailed.
  assert (∀ h, resHeaders (forwardHeaders response (status (respStatus response) own)) !! h
               = if bool_decide (h ∈ allowed)
                 then match forwardable response h with
                      | Some v => Some v
                      | None => resHeaders own !! h
                      end
                 else resHeaders own !! h) as Hfw.
  { intros h. by rewrite forwardHeaders_lookup. }
  destruct (chatHandler_reply locale env backend sock body res0 data response
              Hparse Hfetch) as [Hx Hcases].
  fold o own in Hcases. fold own in Hx.
  assert (∀ h, h ∈ allowed → h ≠ "content-length" ∧ h ≠ "etag") as Hnames.
  { intros h Hin. subst allowed.
    repeat (apply elem_of_cons in Hin as [->|Hin]; [by split|]).
    by apply elem_of_nil in Hin. }
  split; [|split; [|split]].
  - intros h v Hin Hv Hne.
    assert (forwardable response h = Some v) as Hf.
    { unfold forwardable. rewrite Hv.
      destruct (String.eqb_spec v ""); [done|done]. }
    destruct Hcases as [[Hh _]|[Hh Hj]].
    + left. rewrite Hh, Hfw, bool_decide_eq_true_2, Hf; done.
    + destruct (decide (h = "content-type")) as [->|Hct].
      * right. split; [done|]. split; [done|].
        rewrite Hh, jsonHeaders_content_type, Hfw, bool_decide_eq_true_2, Hf, Hx
          by done.
        by destruct (String.eqb_spec v "").
      * left. destruct (Hnames h Hin) as [? ?].
        rewrite Hh, jsonHeaders_other, Hfw, bool_decide_eq_true_2, Hf; done.
  - intros h Hin Hv.
    assert (forwardable response h = None) as Hf.
    { unfold forwardable. by destruct Hv as [-> | ->]. }
    destruct Hcases as [[Hh _]|[Hh Hj]].
    + left. rewrite Hh, Hfw, bool_decide_eq_true_2, Hf; done.
    + destruct (decide (h = "content-type")) as [->|Hct]; [by right|].
      left. destruct (Hnames h Hin) as [? ?].
      rewrite Hh, jsonHeaders_other, Hfw, bool_decide_eq_true_2, Hf; done.
  - intros h Hout.
    destruct Hcases as [[Hh _]|[Hh Hj]].
    + left. by rewrite Hh, Hfw, bool_decide_eq_false_2.
    + destruct (decide (h = "content-length")) as [->|Hcl]; [right; auto|].
      destruct (decide (h = "etag")) as [->|Het]; [right; auto|].
      left. rewrite Hh, jsonHeaders_other, Hfw, bool_decide_eq_false_2; try done.
      intros ->. apply Hout. subst allowed. left.
  - intros backend' response' Hfetch' Hstatus Hbody Hsame.
    subst o. unfold chatHandler. rewrite Hparse, Hfetch, Hfetch', Hstatus, Hbody.
    by rewrite (forwardHeaders_agree response response' Hsame).
Qed.

Lemma allow_list_forwarding_witness :
  safeParse sampleLocale hiBody = inr hiData
  ∧ resHeaders (reply (chatHandler sampleLocale sampleEnv streamingBackend
                         alternating hiBody blank)) !! "content-type"
    = Some "application/x-ndjson"
  ∧ chatHandler sampleLocale sampleEnv (λ _, Resolves ndjsonWithExtras)
                alternating hiBody blank
    = chatHandler sampleLocale sampleEnv streamingBackend alternating hiBody blank.
Proof.
  split; [reflexivity|].
  pose proof (allow_list_forwarding sampleLocale sampleEnv streamingBackend
                alternating hiBody blank hiData ndjson eq_refl eq_refl)
    as (Hin & _ & _ & Hsame).
  split.
  - destruct (Hin "content-type" "application/x-ndjson") as [H|(_ & Hj & _)];
      [left|reflexivity|discriminate|exact H|].
    vm_compute in Hj. discriminate Hj.
  - apply (Hsame (λ _, Resolves ndjsonWithExtras) ndjsonWithExtras);
      try reflexivity.
    intros h Hin'.
    repeat (apply elem_of_cons in Hin' as [->|Hin']; [reflexivity|]).
    by apply elem_of_nil in Hin'.
Defined.

(** An allow-listed header that the backend sends with an empty value does
    not reach the client, and neither does a header outside the list. *)
Lemma empty_header_not_forwarded :
  let o := chatHandler sampleLocale sampleEnv (λ _, Resolves bareCacheControl)
                       alternating hiBody blank in
  "cache-control"
    ∈ ["content-type"; "transfer-encoding"; "cache-control"; "content-encoding"]
  ∧ respHeaders bareCacheControl !! "cache-control" = Some ""
  ∧ resHeaders (reply o) !! "cache-control" = None
  ∧ resHeaders (reply o) !! "x-request-id" = None.
Proof.
  split; [set_solver|]. by vm_compute.
Qed.

(** The forwarded content type on the relay's own error reply: the backend
    sent [application/x-ndjson], the client reads it with a charset. *)
Example error_reply_content_type :
  let o := chatHandler sampleLocale sampleEnv
                       (λ _, Resolves abortedBeforeFirstChunk)
                       alternating hiBody blank in
  resHeaders (reply o) !! "content-type"
  = Some "application/x-ndjson; charset=utf-8"
  ∧ resHeaders (reply o) !! "content-length" = Some "40"
  ∧ resHeaders (reply o) !! "etag" = Some "W/28-sample".
Proof. by vm_compute. Qed.

(** ** C9: the outbound call *)

Lemma orElse_configured (v : option string) (default : string) :
  orElse v default = configured v default.
Proof. by destruct v as [[|a s]|]. Qed.

Lemma chatHandler_calls
    (locale : Zod) (env : Env)
    (backend : Backend) (sock : Socket) (body : option json) (res0 : Response) :
  calls (chatHandler locale env backend sock body res0)
  = match safeParse locale body with
    | inl _ => []
    | inr data => [backendCall env data]
    end.
Proof.
  unfold chatHandler. destruct (safeParse locale body) as [issues|data]; [done|].
  destruct (backend _) as [response|e]; [|done].
  by destruct (respBody response).
Qed.

Lemma parseMessage_from (locale : Zod)
    (item : json) (m : Message) :
  parseMessage locale (Some item) = inr m → parsedFrom item m.
Proof.
  unfold parseMessage, parsedFrom. destruct item as [| | | | |fields]; try done.
  pose proof (parseRole_spec locale (getField "role" fields)) as Hr.
  pose proof (parseContent_spec locale (getField "content" fields)) as Hc.
  destruct (parseRole locale _) as [lr|r], (parseContent locale _) as [lc|c];
    simpl; try done.
  intros [= <-]. exists fields. simpl. by destruct Hc as [-> _].
Qed.

Lemma parseItems_from (locale : Zod)
    (items : list json) :
  ∀ i, (parseItems locale i items).1 = [] →
       Forall2 parsedFrom items (parseItems locale i items).2.
Proof.
  induction items as [|item rest IH]; intros i; [by constructor|].
  rewrite parseItems_issues. intros [Hhead Hrest]%app_nil.
  specialize (IH (S i) Hrest). cbn [parseItems].
  destruct (parseItems locale (S i) rest) as [issues ms].
  pose proof (parseMessage_from locale item) as Hfrom.
  pose proof (parseMessage_reports locale item) as Hrep.
  destruct (parseMessage locale (Some item)) as [l|m]; simpl in *.
  - exfalso. apply (Hrep l eq_refl). by destruct l.
  - constructor; [by apply Hfrom|done].
Qed.

Lemma parseMessages_from (locale : Zod)
    (v : option json) (ms : list Message) :
  parseMessages locale v = inr ms →
  ∃ items, v = Some (JArr items) ∧ Forall2 parsedFrom items ms.
Proof.
  intros Hparse.
  assert (validMessages v) as (items & -> & _ & Hvalid).
  { apply (parseMessages_valid locale). by exists ms. }
  exists items. split; [done|].
  apply (parseItems_clean locale items 0) in Hvalid.
  pose proof (parseItems_from locale items 0 Hvalid) as Hfrom.
  unfold parseMessages in Hparse.
  destruct (parseItems locale 0 items) as [issues ms0]. simpl in Hfrom.
  destruct (match arrayChecks locale with
            | AfterElements => _ | BeforeElements => _ | InsteadOfElements => _
            end) as [|? ?]; [|done].
  by injection Hparse as <-.
Qed.

Lemma safeParse_messages (locale : Zod)
    (body : option json) (data : ChatRequest) :
  safeParse locale body = inr data →
  ∃ fields items,
    body = Some (JObj fields)
    ∧ getField "messages" fields = Some (JArr items)
    ∧ Forall2 parsedFrom items (messages data).
Proof.
  unfold safeParse. destruct body as [[| | | | |fields]|]; try done.
  destruct (parseMessages locale (getField "messages" fields)) as [lm|ms] eqn:Hpm;
    cbn [under both issuesOf].
  { by destruct (under _ (parseStream locale _)). }
  destruct (parseStream locale _) as [ls|st]; cbn [under]; [done|].
  intros [= <-]. exists fields.
  destruct (parseMessages_from locale _ ms Hpm) as (items & Hm & Hfrom).
  exists items. simpl. auto.
Qed.

Lemma relayed_from (item : json) (m : Message) :
  parsedFrom item m → relayedMessage item (messageJson m).
Proof.
  intros (fields & -> & Hr & Hc). exists fields, (roleText (role m)), (content m).
  by repeat split.
Qed.

(** C9. For a request that validates, the handler makes exactly one backend
    call: a POST to [/api/chat] under the configured base URL (default
    [http://localhost:11434]), with a JSON content type, whose body is the
    object [{model, messages, stream, keep_alive: -1}]: the model is the
    configured one (default [nemotron-3-nano]); [messages] has, for every
    element of the request's [messages] and in the same order, the object
    of that element's role and content and nothing else; [stream] is the
    request's, [false] when the request has none. *)
Theorem backend_call_shape
    (locale : Zod) (env : Env)
    (backend : Backend) (sock : Socket) (body : option json) (res0 : Response)
    (data : ChatRequest) :
  safeParse locale body = inr data →
  ∃ fields items relayed,
    body = Some (JObj fields)
    ∧ getField "messages" fields = Some (JArr items)
    ∧ Forall2 relayedMessage items relayed
    ∧ calls (chatHandler locale env backend sock body res0)
      = [mkFetchCall
           (configured (OLLAMA_URL env) "http://localhost:11434" +:+ "/api/chat")
           "POST"
           [("Content-Type", "application/json")]
           (JObj [("model", JStr (configured (OLLAMA_MODEL env) "nemotron-3-nano"));
                  ("messages", JArr relayed);
                  ("stream", JBool match getField "stream" fields with
                                   | Some (JBool b) => b
                                   | _ => false
                                   end);
                  ("keep_alive", JNum (-1))])].
Proof.
  intros Hparse.
  destruct (safeParse_messages locale body data Hparse)
    as (fields & items & -> & Hm & Hfrom).
  exists fields, items, (messageJson <$> messages data).
  split; [done|]. split; [done|]. split.
  - apply Forall2_fmap_r. eapply Forall2_impl; [exact Hfrom|].
    intros item m. apply relayed_from.
  - rewrite chatHandler_calls, Hparse. unfold backendCall, backendBody.
    rewrite !orElse_configured.
    by rewrite (safeParse_stream locale fields data Hparse).
Qed.

Lemma backend_call_shape_witness :
  safeParse sampleLocale hiBody = inr hiData
  ∧ ∃ fields items relayed,
      hiBody = Some (JObj fields)
      ∧ getField "messages" fields = Some (JArr items)
      ∧ Forall2 relayedMessage items relayed
      ∧ calls (chatHandler sampleLocale sampleEnv streamingBackend alternating
                 hiBody blank)
        = [mkFetchCall
             (configured (OLLAMA_URL sampleEnv) "http://localhost:11434"
              +:+ "/api/chat")
             "POST"
             [("Content-Type", "application/json")]
             (JObj [("model",
                     JStr (configured (OLLAMA_MODEL sampleEnv) "nemotron-3-nano"));
                    ("messages", JArr relayed);
                    ("stream", JBool match getField "stream" fields with
                                     | Some (JBool b) => b
                                     | _ => false
                                     end);
                    ("keep_alive", JNum (-1))])].
Proof.
  split; [reflexivity|].
  exact (backend_call_shape sampleLocale sampleEnv streamingBackend
           alternating hiBody blank hiData eq_refl).
Defined.

(** The call of the sample request, written out. *)
Example hi_call :
  calls (chatHandler sampleLocale sampleEnv streamingBackend alternating
           hiBody blank)
  = [mkFetchCall "http://localhost:11434/api/chat" "POST"
       [("Content-Type", "application/json")]
       (JObj [("model", JStr "nemotron-3-nano");
              ("messages",
               JArr [JObj [("role", JStr "user"); ("content", JStr "hi")]]);
              ("stream", JBool false);
              ("keep_alive", JNum (-1))])].
Proof. reflexivity. Qed.

(** ** C10: the client cannot steer the call *)

Lemma safeParse_reads_two_fields (locale : Zod)
    (fields1 fields2 : list (string * json)) :
  getField "messages" fields1 = getField "messages" fields2 →
  getField "stream" fields1 = getField "stream" fields2 →
  safeParse locale (Some (JObj fields1)) = safeParse locale (Some (JObj fields2)).
Proof. unfold safeParse. by intros -> ->. Qed.

(** C10. Two requests with the same Authorization header whose bodies are
    objects with the same [messages] and the same [stream], and differ in
    any other property ([model] among them), are handled alike: the same
    backend calls with the same bodies, the same response. The model of
    every call is the configured one (default [nemotron-3-nano]). *)
Theorem client_cannot_steer_call
    (locale : Zod) (now : Z) (env : Env)
    (backend : Backend) (sock : Socket) (db : Prisma) (req1 req2 : Request)
    (res0 : Response) (fields1 fields2 : list (string * json)) :
  authorization req1 = authorization req2 →
  reqJson req1 = Some (JObj fields1) →
  reqJson req2 = Some (JObj fields2) →
  getField "messages" fields1 = getField "messages" fields2 →
  getField "stream" fields1 = getField "stream" fields2 →
  postChat locale now env backend sock db req1 res0
  = postChat locale now env backend sock db req2 res0
  ∧ ∀ call, call ∈ calls (postChat locale now env backend sock db req1 res0).2 →
            modelOf call
            = Some (JStr (configured (OLLAMA_MODEL env) "nemotron-3-nano")).
Proof.
  intros Hauth Hb1 Hb2 Hm Hs.
  pose proof (safeParse_reads_two_fields locale fields1 fields2 Hm Hs) as Hparse.
  split.
  - unfold postChat. rewrite Hauth, Hb1, Hb2.
    destruct (validateApiKey now db (authorization req2) res0); [|done].
    f_equal. unfold chatHandler. by rewrite Hparse.
  - intros call. unfold postChat.
    destruct (validateApiKey now db (authorization req1) res0); simpl.
    + rewrite chatHandler_calls.
      destruct (safeParse locale (reqJson req1)) as [|data];
        [by intros []%elem_of_nil|].
      intros ->%list_elem_of_singleton. unfold modelOf. simpl.
      by rewrite orElse_configured.
    + by intros []%elem_of_nil.
Qed.

Lemma client_cannot_steer_call_witness :
  getField "messages" hijackBody
  = getField "messages" [("messages",
       JArr [JObj [("role", JStr "user"); ("content", JStr "hi")]])]
  ∧ postChat sampleLocale 1000 sampleEnv streamingBackend alternating
             (sampleStore true false) (mkRequest (Some "Bearer abc123")
                                                 (Some (JObj hijackBody))) blank
    = postChat sampleLocale 1000 sampleEnv streamingBackend alternating
               (sampleStore true false) bearer blank.
Proof.
  split; [reflexivity|].
  exact (proj1 (client_cannot_steer_call sampleLocale 1000 sampleEnv
                  streamingBackend alternating (sampleStore true false)
                  (mkRequest (Some "Bearer abc123") (Some (JObj hijackBody)))
                  bearer blank hijackBody _
                  eq_refl eq_refl eq_refl eq_refl eq_refl)).
Defined.

(** * Further properties of the request path *)

(** ** Authentication *)

Lemma find_some_key (token : string) (rows : list ApiKey) (k : ApiKey) :
  List.find (λ r, String.eqb (key r) token) rows = Some k →
  k ∈ rows ∧ key k = token.
Proof.
  intros [Hin Heq]%List.find_some. split.
  - by apply list_elem_of_In.
  - by apply String.eqb_eq.
Qed.

Lemma bearer_token (token : string) :
  startsWith "Bearer " ("Bearer " +:+ token) = true
  ∧ substringFrom 7 ("Bearer " +:+ token) = token
  ∧ truthy (Some ("Bearer " +:+ token)) = true.
Proof. done. Qed.

(** A backend call is made only for a request whose Authorization header
    is [Bearer ] followed by the key of an active row, the store having
    answered the lookup and taken the update. *)
Theorem backend_call_needs_active_key
    (locale : Zod) (now : Z) (env : Env)
    (backend : Backend) (sock : Socket) (db : Prisma) (req : Request)
    (res0 : Response) :
  calls (postChat locale now env backend sock db req res0).2 ≠ [] →
  ∃ h k, authorization req = Some h
         ∧ startsWith "Bearer " h = true
         ∧ k ∈ apiKeys db ∧ key k = substringFrom 7 h ∧ isActive k = true
         ∧ findUniqueFails db = false ∧ updateFails db = false.
Proof.
  unfold postChat, validateApiKey.
  destruct (authorization req) as [h|]; [|done].
  destruct (startsWith "Bearer " h) eqn:Hscheme;
    [|by rewrite orb_true_r].
  destruct (negb (truthy (Some h)) || negb true); [done|].
  unfold findUnique. destruct (findUniqueFails db) eqn:Hfind; [done|].
  destruct (List.find _ _) as [k|] eqn:Hk; [|done].
  apply find_some_key in Hk as [Hin Hkey].
  destruct (isActive k) eqn:Hactive; [|done]. simpl.
  unfold update. destruct (updateFails db) eqn:Hupd; [done|].
  destruct (existsb _ _); [|done]. intros _. by exists h, k.
Qed.

Lemma backend_call_needs_active_key_witness :
  calls (postChat sampleLocale 1000 sampleEnv streamingBackend alternating
                  (sampleStore true false) bearer blank).2 ≠ []
  ∧ ∃ h k, authorization bearer = Some h
           ∧ startsWith "Bearer " h = true
           ∧ k ∈ apiKeys (sampleStore true false)
           ∧ key k = substringFrom 7 h ∧ isActive k = true
           ∧ findUniqueFails (sampleStore true false) = false
           ∧ updateFails (sampleStore true false) = false.
Proof.
  assert (calls (postChat sampleLocale 1000 sampleEnv streamingBackend alternating
                          (sampleStore true false) bearer blank).2 ≠ []) as Hcall.
  { discriminate. }
  split; [exact Hcall|].
  exact (backend_call_needs_active_key sampleLocale 1000 sampleEnv
           streamingBackend alternating (sampleStore true false) bearer blank
           Hcall).
Defined.

(** When the store fails the lookup of a well-formed bearer token, the
    answer is 500 with its own error body, not 401; no backend call is made
    and the store is left as it was. *)
Theorem lookup_failure_is_500
    (locale : Zod) (now : Z) (env : Env)
    (backend : Backend) (sock : Socket) (db : Prisma) (req : Request)
    (res0 : Response) (token : string) :
  authorization req = Some ("Bearer " +:+ token) →
  findUniqueFails db = true →
  postChat locale now env backend sock db req res0
  = (db, mkOutcome [] (Settled (session
           (json_ (errorBody "Internal server error") (status 500 res0))))).
Proof.
  intros Hauth Hfail. unfold postChat, validateApiKey. rewrite Hauth.
  destruct (bearer_token token) as (-> & -> & ->). simpl.
  unfold findUnique. by rewrite Hfail.
Qed.

Lemma lookup_failure_is_500_witness :
  statusCode (reply (postChat sampleLocale 1000 sampleEnv streamingBackend
                       alternating (mkPrisma [sampleKey true] true false)
                       bearer blank).2) = 500.
Proof.
  rewrite (lookup_failure_is_500 sampleLocale 1000 sampleEnv streamingBackend
             alternating (mkPrisma [sampleKey true] true false) bearer blank
             "abc123" eq_refl eq_refl).
  reflexivity.
Defined.

Lemma touched_rows (now rowId : Z) (rows : list ApiKey) :
  Forall2 (sameKey now) rows
          (map (λ r, if id r =? rowId then touch now r else r) rows).
Proof.
  induction rows as [|r rows IH]; simpl; constructor; [|done].
  unfold sameKey. destruct (id r =? rowId); simpl; repeat split; auto.
Qed.

Lemma same_rows (now : Z) (rows : list ApiKey) : Forall2 (sameKey now) rows rows.
Proof.
  induction rows as [|r rows IH]; constructor; [|done].
  unfold sameKey. repeat split; auto.
Qed.

Lemma sameKey_keys (now : Z) (rows rows' : list ApiKey) :
  Forall2 (sameKey now) rows rows' → key <$> rows' = key <$> rows.
Proof.
  induction 1 as [|r r' rows rows' (_ & Hk & _) _ IH]; [done|].
  by rewrite !fmap_cons, Hk, IH.
Qed.

Lemma validateApiKey_store (now : Z) (db : Prisma) (auth : option string)
    (res0 : Response) :
  let db' := match validateApiKey now db auth res0 with
             | Next db' | Replied db' _ => db'
             end in
  Forall2 (sameKey now) (apiKeys db) (apiKeys db')
  ∧ findUniqueFails db' = findUniqueFails db
  ∧ updateFails db' = updateFails db.
Proof.
  unfold validateApiKey. destruct auth as [h|]; [|by split; [apply same_rows|]].
  destruct (negb (truthy (Some h)) || negb (startsWith "Bearer " h));
    [by split; [apply same_rows|]|].
  destruct (findUnique _ db) as [[k|]|]; try by split; [apply same_rows|].
  destruct (negb (isActive k)); [by split; [apply same_rows|]|].
  unfold update. destruct (updateFails db) eqn:Hu; [by split; [apply same_rows|]|].
  destruct (existsb _ _); [|by split; [apply same_rows|]]. simpl.
  split; [apply touched_rows|done].
Qed.

(** Whatever the request and whatever becomes of it, the key table keeps
    its rows in place with their ids, keys, descriptions, active flags and
    creation times; a last-used timestamp either stays or becomes the
    current time. Keys that were unique stay unique. *)
Theorem request_keeps_keys
    (locale : Zod) (now : Z) (env : Env)
    (backend : Backend) (sock : Socket) (db : Prisma) (req : Request)
    (res0 : Response) :
  let db' := (postChat locale now env backend sock db req res0).1 in
  Forall2 (sameKey now) (apiKeys db) (apiKeys db')
  ∧ findUniqueFails db' = findUniqueFails db
  ∧ updateFails db' = updateFails db
  ∧ (uniqueKeys db → uniqueKeys db').
Proof.
  pose proof (validateApiKey_store now db (authorization req) res0) as H.
  unfold postChat. simpl in *.
  destruct (validateApiKey now db (authorization req) res0) as [db'|db' r'];
    simpl; destruct H as (Hrows & Hf & Hu); repeat split; try done;
    unfold uniqueKeys; by rewrite (sameKey_keys _ _ _ Hrows).
Qed.

Lemma request_keeps_keys_witness :
  uniqueKeys (sampleStore true false)
  ∧ uniqueKeys (postChat sampleLocale 1000 sampleEnv streamingBackend
                         alternating (sampleStore true false) bearer blank).1.
Proof.
  assert (uniqueKeys (sampleStore true false)) as Huniq.
  { unfold uniqueKeys. simpl. apply NoDup_singleton. }
  split; [exact Huniq|].
  by apply (request_keeps_keys sampleLocale 1000 sampleEnv streamingBackend
              alternating (sampleStore true false) bearer blank).
Defined.

(** A request bearing the key of an active row of a working store with
    unique keys passes the middleware: the handler runs on the untouched
    response, and the row's last-used timestamp is the current time. *)
Theorem active_key_reaches_handler
    (locale : Zod) (now : Z) (env : Env)
    (backend : Backend) (sock : Socket) (db : Prisma) (req : Request)
    (res0 : Response) (k : ApiKey) :
  uniqueKeys db →
  findUniqueFails db = false → updateFails db = false →
  k ∈ apiKeys db → isActive k = true →
  authorization req = Some ("Bearer " +:+ key k) →
  ∃ db', postChat locale now env backend sock db req res0
         = (db', chatHandler locale env backend sock (reqJson req) res0)
         ∧ ∃ k', k' ∈ apiKeys db' ∧ key k' = key k ∧ isActive k' = true
                 ∧ lastUsedAt k' = Some now.
Proof.
  intros Huniq Hfind Hupd Hin Hactive Hauth.
  unfold postChat, validateApiKey. rewrite Hauth.
  destruct (bearer_token (key k)) as (-> & -> & ->). simpl.
  unfold findUnique. rewrite Hfind, (find_unique _ _ k Huniq Hin eq_refl), Hactive.
  simpl. unfold update. rewrite Hupd.
  assert (existsb (λ r, id r =? id k) (apiKeys db) = true) as ->.
  { apply existsb_exists. exists k. split; [by apply list_elem_of_In|].
    apply Z.eqb_refl. }
  eexists. split; [done|]. exists (touch now k). simpl. repeat split; try done.
  apply list_elem_of_fmap. exists k. by rewrite Z.eqb_refl.
Qed.

Lemma active_key_reaches_handler_witness :
  ∃ db', postChat sampleLocale 1000 sampleEnv streamingBackend alternating
                  (sampleStore true false) bearer blank
         = (db', chatHandler sampleLocale sampleEnv streamingBackend alternating
                             (reqJson bearer) blank)
         ∧ ∃ k', k' ∈ apiKeys db' ∧ key k' = key (sampleKey true)
                 ∧ isActive k' = true ∧ lastUsedAt k' = Some 1000.
Proof.
  apply (active_key_reaches_handler sampleLocale 1000 sampleEnv streamingBackend
           alternating (sampleStore true false) bearer blank (sampleKey true));
    try reflexivity.
  - unfold uniqueKeys. simpl. apply NoDup_singleton.
  - simpl. apply list_elem_of_singleton. reflexivity.
Defined.

(** ** The relay in failing runs *)

Lemma readStream_sent (sock : Socket) (src : ReaderScript) (s : Relay) :
  sent (res (stateOf (readStream sock src s)))
  = sent (res (relayLoop sock 0 src s).2).
Proof.
  unfold readStream. destruct (relayLoop sock 0 src s) as [[| |] s']; simpl;
    try done.
  by destruct (headersSent (res s')).
Qed.

Lemma readStream_settled (sock : Socket) (src : ReaderScript) (s f : Relay) :
  readStream sock src s = Settled f →
  writableEnded (res f) = true ∧ headersSent (res f) = true.
Proof.
  unfold readStream. destruct (relayLoop sock 0 src s) as [[| |] s']; simpl;
    try done.
  - by intros [= <-].
  - intros [= <-]. by destruct (headersSent (res s')).
Qed.

Lemma forwarded_untouched (response : BackendResponse) (data : ChatRequest)
    (res0 : Response) :
  untouched res0 = true →
  let r := forwardHeaders response
             (if stream data
              then setHeader "X-Accel-Buffering" "no"
                             (status (respStatus response) res0)
              else status (respStatus response) res0) in
  statusCode r = respStatus response ∧ headersSent r = false
  ∧ sent r = [] ∧ jsonBody r = None ∧ writableEnded r = false.
Proof.
  intros (Hhead & Hend & Hsent & Hjson)%untouched_inv. simpl.
  destruct (forwardHeaders_frame response
              (if stream data
               then setHeader "X-Accel-Buffering" "no"
                              (status (respStatus response) res0)
               else status (respStatus response) res0))
    as (-> & -> & -> & -> & ->).
  by destruct (stream data).
Qed.

(** Whatever the backend body and the connection do, what has been written
    to the client is an initial part of the backend's chunks, in order:
    a failing or stalled relay truncates the body and never reorders,
    repeats or invents a chunk. *)
Theorem relay_delivers_prefix
    (locale : Zod) (env : Env)
    (backend : Backend) (sock : Socket) (body : option json) (res0 : Response)
    (data : ChatRequest) (response : BackendResponse) (src : ReaderScript) :
  untouched res0 = true →
  safeParse locale body = inr data →
  backend (backendCall env data) = Resolves response →
  respBody response = Some src →
  sent (reply (chatHandler locale env backend sock body res0))
    `prefix_of` chunksOf src.
Proof.
  intros Hfresh Hparse Hfetch Hbody.
  destruct (forwarded_untouched response data res0 Hfresh) as (_ & _ & Hs & _).
  unfold chatHandler, reply. rewrite Hparse, Hfetch, Hbody. simpl.
  set (r1 := forwardHeaders response _) in *.
  rewrite readStream_sent.
  destruct (relayLoop_frame sock src 0%nat (mkRelay r1 true []))
    as (_ & _ & _ & _ & k & ->).
  simpl. rewrite Hs. simpl. apply prefix_take.
Qed.

Lemma relay_delivers_prefix_witness :
  sent (reply (chatHandler sampleLocale sampleEnv
                 (λ _, Resolves (mkBackendResponse 200 ∅
                                   (Some (produce sampleChunks Closed))))
                 (λ n, if (n <? 2)%nat then Flushed else Buffered false)
                 hiBody blank))
    `prefix_of` sampleChunks.
Proof.
  exact (relay_delivers_prefix sampleLocale sampleEnv
           (λ _, Resolves (mkBackendResponse 200 ∅
                             (Some (produce sampleChunks Closed))))
           (λ n, if (n <? 2)%nat then Flushed else Buffered false)
           hiBody blank hiData _ _ eq_refl eq_refl eq_refl eq_refl).
Defined.

Lemma relayLoop_produce (sock : Socket) (chunks : list Chunk)
    (tail : ReaderScript) :
  ∀ n s,
    (∀ i, (i < length chunks)%nat → accepted (sock (n + i)%nat) = true) →
    ∃ s', relayLoop sock n (produce chunks tail) s
          = relayLoop sock (n + length chunks) tail s'
          ∧ sent (res s') = sent (res s) ++ chunks
          ∧ statusCode (res s') = statusCode (res s)
          ∧ jsonBody (res s') = jsonBody (res s)
          ∧ headersSent (res s')
            = headersSent (res s) || match chunks with [] => false | _ => true end.
Proof.
  induction chunks as [|c chunks IH]; intros n s Hacc.
  - exists s. simpl. by rewrite Nat.add_0_r, app_nil_r, orb_false_r.
  - pose proof (Hacc 0%nat ltac:(simpl; lia)) as H0.
    rewrite Nat.add_0_r in H0.
    assert (∀ i, (i < length chunks)%nat → accepted (sock (S n + i)%nat) = true)
      as Hrest.
    { intros i Hi. specialize (Hacc (S i) ltac:(simpl; lia)).
      by rewrite Nat.add_succ_r in Hacc. }
    cbn [produce foldr relayLoop length]. fold (produce chunks tail).
    rewrite Nat.add_succ_r.
    destruct (sock n) as [|[|]|]; simpl in H0; try done.
    + destruct (IH (S n) (emit (EvWrite c true) (onRes (write c) (emit (EvRead c) s)))
                   Hrest) as (s' & Heq & Hs & Hst & Hj & Hh).
      exists s'. rewrite Heq, Hs, Hst, Hj, Hh. simpl.
      by rewrite <- app_assoc, orb_true_r.
    + destruct (IH (S n)
                   (emit EvDrain (emit EvAwaitDrain (emit (EvWrite c false)
                      (onRes (write c) (emit (EvRead c) s))))) Hrest)
        as (s' & Heq & Hs & Hst & Hj & Hh).
      exists s'. rewrite Heq, Hs, Hst, Hj, Hh. simpl.
      by rewrite <- app_assoc, orb_true_r.
Qed.

(** When the body fails after [chunks] were written (a read rejects or a
    write throws), the response is ended with exactly those chunks sent.
    If nothing was written yet the client gets 502 with the streaming error
    body in place of the backend's status; once a chunk is out, the
    backend's status stands and no error body follows. *)
Theorem stream_failure_response
    (locale : Zod) (env : Env)
    (backend : Backend) (sock : Socket) (body : option json) (res0 : Response)
    (data : ChatRequest) (response : BackendResponse) (src : ReaderScript)
    (chunks : list Chunk) :
  untouched res0 = true →
  safeParse locale body = inr data →
  backend (backendCall env data) = Resolves response →
  respBody response = Some src →
  failsAfter sock chunks src →
  (∀ i, (i < length chunks)%nat → accepted (sock i) = true) →
  let o := chatHandler locale env backend sock body res0 in
  isSettled (handler o) = true
  ∧ writableEnded (reply o) = true
  ∧ lockHeld (stateOf (handler o)) = false
  ∧ sent (reply o) = chunks
  ∧ match chunks with
    | [] => statusCode (reply o) = 502
            ∧ jsonBody (reply o) = Some streamErrorBody
    | _ :: _ => statusCode (reply o) = respStatus response
                ∧ jsonBody (reply o) = None
    end.
Proof.
  intros Hfresh Hparse Hfetch Hbody Hfail Hacc.
  destruct (forwarded_untouched response data res0 Hfresh)
    as (Hst & Hhead & Hs & Hj & _).
  unfold chatHandler, reply. rewrite Hparse, Hfetch, Hbody. simpl.
  set (r1 := forwardHeaders response _) in *.
  assert (∃ tail, src = produce chunks tail
                  ∧ ∀ s, ∃ s', relayLoop sock (length chunks) tail s = (Threw, s')
                               ∧ res s' = res s) as (tail & -> & Htail).
  { destruct Hfail as [->|(c & rest & -> & Hthrow)].
    - exists Errored. split; [done|]. intros s. by eexists.
    - exists (Produce c rest). split; [done|]. intros s. simpl.
      rewrite Hthrow. by eexists. }
  unfold readStream.
  destruct (relayLoop_produce sock chunks tail 0%nat (mkRelay r1 true []) Hacc)
    as (s1 & Heq & Hs1 & Hst1 & Hj1 & Hh1).
  rewrite Nat.add_0_l in Heq. rewrite Heq.
  destruct (Htail s1) as (s2 & -> & Hres). simpl in *.
  rewrite Hres, Hh1, Hhead, Hs in *. simpl in *.
  destruct chunks as [|c chunks]; simpl; rewrite ?Hres; simpl;
    rewrite ?Hs1, ?Hst1, ?Hj1, ?Hst, ?Hj; done.
Qed.

Lemma stream_failure_response_witness :
  let o := chatHandler sampleLocale sampleEnv
             (λ _, Resolves (mkBackendResponse 200 ∅
                               (Some (produce [] Errored))))
             alternating hiBody blank in
  statusCode (reply o) = 502 ∧ jsonBody (reply o) = Some streamErrorBody.
Proof.
  pose proof (stream_failure_response sampleLocale sampleEnv
                (λ _, Resolves (mkBackendResponse 200 ∅
                                  (Some (produce [] Errored))))
                alternating hiBody blank hiData _ _ []
                eq_refl eq_refl eq_refl eq_refl (or_introl eq_refl)) as H.
  simpl in H. apply H. intros i Hi. inversion Hi.
Defined.

(** A request whose handling has returned has its response ended, head
    included: no path through the middleware and the handler returns with
    the connection left open. *)
Theorem settled_request_is_answered
    (locale : Zod) (now : Z) (env : Env)
    (backend : Backend) (sock : Socket) (db : Prisma) (req : Request)
    (res0 : Response) :
  untouched res0 = true →
  let o := (postChat locale now env backend sock db req res0).2 in
  isSettled (handler o) = true →
  writableEnded (reply o) = true ∧ headersSent (reply o) = true.
Proof.
  intros Hfresh. pose proof Hfresh as (Hhead & _)%untouched_inv.
  unfold postChat, reply.
  assert (∀ r', validateApiKey now db (authorization req) res0 = Replied db r' →
                writableEnded r' = true ∧ headersSent r' = true) as Hreplied.
  { unfold validateApiKey. intros r'.
    destruct (authorization req) as [h|]; [|by intros [= <-]].
    destruct (negb _ || negb _); [by intros [= <-]|].
    destruct (findUnique _ db) as [[k|]|]; try by intros [= <-].
    destruct (negb (isActive k)); [by intros [= <-]|].
    destruct (update _ _ _); [done|by intros [= <-]]. }
  destruct (validateApiKey now db (authorization req) res0) as [db'|db' r'] eqn:Hv.
  - simpl. unfold chatHandler.
    destruct (safeParse locale (reqJson req)) as [issues|data]; [done|].
    destruct (backend _) as [response|e]; simpl.
    + destruct (respBody response) as [src|]; simpl; [|done].
      destruct (readStream sock src _) as [f|f] eqn:Hrs; simpl; [|done].
      intros _. by apply readStream_settled in Hrs.
    + intros _. unfold onFetchError. rewrite Hhead.
      by destruct (isAbortError e).
  - simpl. intros _. unfold validateApiKey in Hv.
    destruct (authorization req) as [h|]; [|by injection Hv as _ <-].
    destruct (negb _ || negb _); [by injection Hv as _ <-|].
    destruct (findUnique _ db) as [[k|]|]; try by injection Hv as _ <-.
    destruct (negb (isActive k)); [by injection Hv as _ <-|].
    destruct (update _ _ _); [done|by injection Hv as _ <-].
Qed.

Lemma settled_request_is_answered_witness :
  untouched blank = true
  ∧ writableEnded (reply (postChat sampleLocale 1000 sampleEnv streamingBackend
                            alternating (sampleStore true false) bearer blank).2)
    = true.
Proof.
  split; [reflexivity|].
  apply (settled_request_is_answered sampleLocale 1000 sampleEnv streamingBackend
           alternating (sampleStore true false) bearer blank); reflexivity.
Defined.

(** ** The validator's messages and what it drops *)

Section MoreValidator.

Variable locale : Zod.

Lemma parseMessage_same (item1 item2 : json) :
  sameMessage item1 item2 →
  parseMessage locale (Some item1) = parseMessage locale (Some item2).
Proof.
  intros (f1 & f2 & -> & -> & Hr & Hc). unfold parseMessage. by rewrite Hr, Hc.
Qed.

Lemma parseItems_same (items1 items2 : list json) :
  Forall2 sameMessage items1 items2 →
  ∀ i, parseItems locale i items1 = parseItems locale i items2.
Proof.
  induction 1 as [|item1 item2 items1 items2 Hsame _ IH]; intros i; [done|].
  cbn [parseItems]. by rewrite IH, (parseMessage_same _ _ Hsame).
Qed.

Lemma parseItems_member (items : list json) :
  ∀ i j item issue,
    items !! j = Some item →
    issue ∈ issuesOf (parseMessage locale (Some item)) →
    mkIssue (Index (i + j) :: path issue) (code issue) (message issue)
    ∈ (parseItems locale i items).1.
Proof.
  induction items as [|item0 rest IH]; intros i j item issue Hj Hin; [done|].
  rewrite parseItems_issues, elem_of_app. destruct j as [|j]; simpl in Hj.
  - left. injection Hj as ->. rewrite Nat.add_0_r.
    destruct (parseMessage locale (Some item)) as [l|m]; simpl in *;
      [|by apply elem_of_nil in Hin].
    unfold prefixIssues. apply list_elem_of_fmap. by exists issue.
  - right. rewrite Nat.add_succ_r. by apply (IH (S i) j item).
Qed.

Lemma safeParse_member (fields : list (string * json)) (issue : Issue) :
  issue ∈ issuesOf (parseMessages locale (getField "messages" fields)) →
  ∃ issues, safeParse locale (Some (JObj fields)) = inl issues
            ∧ mkIssue (Key "messages" :: path issue) (code issue) (message issue)
              ∈ issues.
Proof.
  intros Hin. unfold safeParse.
  destruct (parseMessages locale _) as [l|ms]; simpl in Hin;
    [|by apply elem_of_nil in Hin].
  exists (prefixIssues (Key "messages") l
          ++ issuesOf (under (Key "stream")
                         (parseStream locale (getField "stream" fields)))).
  split; [by destruct (parseStream locale _)|].
  apply elem_of_app. left. unfold prefixIssues.
  apply list_elem_of_fmap. by exists issue.
Qed.

Lemma parseMessages_member (items : list json) (issue : Issue) :
  issue ∈ arrayIssues locale items →
  issue ∈ issuesOf (parseMessages locale (Some (JArr items))).
Proof. by rewrite (proj1 (parseMessages_array locale items)). Qed.

Lemma arrayIssues_few (items : list json) :
  items = [] →
  mkIssue [] too_small "At least one message is required"
  ∈ arrayIssues locale items.
Proof.
  intros ->. unfold arrayIssues. simpl. destruct (arrayChecks locale); left.
Qed.

Lemma arrayIssues_many (items : list json) :
  (100 < length items)%nat →
  mkIssue [] too_big "Too many messages (max 100)" ∈ arrayIssues locale items.
Proof.
  intros Hlen. unfold arrayIssues.
  destruct (Nat.ltb_spec 100 (length items)) as [_|?]; [|lia].
  destruct (Nat.ltb_spec (length items) 1) as [?|_]; [lia|].
  destruct (arrayChecks locale); simpl; rewrite ?elem_of_app;
    [right| |]; left.
Qed.

Lemma arrayIssues_element (items : list json) (issue : Issue) :
  arrayChecks locale ≠ InsteadOfElements ∨ (length items ≤ 100)%nat →
  issue ∈ (parseItems locale 0 items).1 →
  issue ∈ arrayIssues locale items.
Proof.
  intros Hchecks Hin. unfold arrayIssues.
  destruct (arrayChecks locale) eqn:Hc; rewrite ?elem_of_app; auto.
  destruct (Nat.ltb_spec 100 (length items)) as [Hlen|_].
  - destruct Hchecks as [?|?]; [done|lia].
  - rewrite elem_of_app. by left.
Qed.

End MoreValidator.

Lemma reports_member
    (locale : Zod) (env : Env)
    (backend : Backend) (sock : Socket) (fields : list (string * json))
    (res0 : Response) (issue : Issue) :
  issue ∈ issuesOf (parseMessages locale (getField "messages" fields)) →
  reports (chatHandler locale env backend sock (Some (JObj fields)) res0)
          (Key "messages" :: path issue) (message issue).
Proof.
  intros (issues & Hparse & Hin)%safeParse_member.
  unfold reports, chatHandler, reply. rewrite Hparse. simpl.
  split; [done|]. exists (detail <$> issues). split; [done|].
  apply list_elem_of_fmap. eexists. split; [|exact Hin].
  by rewrite detail_detailOf.
Qed.

(** The 400 answer carries the schema's own texts: [messages] is named with
    "At least one message is required" when the array is empty and with
    "Too many messages (max 100)" when it has more than 100 elements; the
    content of the i-th message is named, under [messages.i.content], with
    "Message content cannot be empty" when it is the empty string, provided
    the array has at most 100 elements or the installed zod parses the
    elements of a longer one. *)
Theorem validation_messages
    (locale : Zod) (env : Env)
    (backend : Backend) (sock : Socket) (fields : list (string * json))
    (items : list json) (res0 : Response) :
  getField "messages" fields = Some (JArr items) →
  let o := chatHandler locale env backend sock (Some (JObj fields)) res0 in
  (items = [] →
     reports o [Key "messages"] "At least one message is required")
  ∧ ((100 < length items)%nat →
     reports o [Key "messages"] "Too many messages (max 100)")
  ∧ (arrayChecks locale ≠ InsteadOfElements ∨ (length items ≤ 100)%nat →
     ∀ i m, items !! i = Some (JObj m) →
            getField "content" m = Some (JStr "") →
            reports o [Key "messages"; Index i; Key "content"]
                    "Message content cannot be empty").
Proof.
  intros Hm o. subst o. split; [|split].
  - intros Hnil.
    apply (reports_member locale env backend sock fields res0
             (mkIssue [] too_small "At least one message is required")).
    rewrite Hm. by apply parseMessages_member, arrayIssues_few.
  - intros Hlen.
    apply (reports_member locale env backend sock fields res0
             (mkIssue [] too_big "Too many messages (max 100)")).
    rewrite Hm. by apply parseMessages_member, arrayIssues_many.
  - intros Hchecks i m Hi Hc.
    apply (reports_member locale env backend sock fields res0
             (mkIssue [Index i; Key "content"] too_small
                      "Message content cannot be empty")).
    rewrite Hm. apply parseMessages_member, arrayIssues_element; [done|].
    apply (parseItems_member locale items 0 i (JObj m)
             (mkIssue [Key "content"] too_small "Message content cannot be empty")
             Hi).
    unfold parseMessage. rewrite Hc. simpl.
    destruct (parseRole locale _); simpl; rewrite ?elem_of_app; [right|]; left.
Qed.

Lemma validation_messages_witness :
  getField "messages" [("messages", JArr [])] = Some (JArr [])
  ∧ reports (chatHandler sampleLocale sampleEnv streamingBackend alternating
                         (Some (JObj [("messages", JArr [])])) blank)
            [Key "messages"] "At least one message is required".
Proof.
  split; [reflexivity|].
  apply (validation_messages sampleLocale sampleEnv streamingBackend alternating
           [("messages", JArr [])] [] blank eq_refl).
  reflexivity.
Defined.

(** Properties of a message other than [role] and [content] do not reach
    the backend: two bodies whose messages agree, element by element, on
    role and content, and whose [stream] is the same, are handled alike,
    with the same backend call. *)
Theorem message_extras_dropped
    (locale : Zod) (env : Env)
    (backend : Backend) (sock : Socket) (res0 : Response)
    (fields1 fields2 : list (string * json)) (items1 items2 : list json) :
  getField "messages" fields1 = Some (JArr items1) →
  getField "messages" fields2 = Some (JArr items2) →
  Forall2 sameMessage items1 items2 →
  getField "stream" fields1 = getField "stream" fields2 →
  chatHandler locale env backend sock (Some (JObj fields1)) res0
  = chatHandler locale env backend sock (Some (JObj fields2)) res0.
Proof.
  intros H1 H2 Hsame Hs.
  assert (safeParse locale (Some (JObj fields1))
          = safeParse locale (Some (JObj fields2))) as Hparse.
  { unfold safeParse, parseMessages. rewrite H1, H2, Hs.
    by rewrite (parseItems_same locale _ _ Hsame), (Forall2_length _ _ _ Hsame). }
  unfold chatHandler. by rewrite Hparse.
Qed.

Lemma message_extras_dropped_witness :
  chatHandler sampleLocale sampleEnv streamingBackend alternating
    (Some (JObj [("messages",
                  JArr [JObj [("name", JStr "root"); ("role", JStr "user");
                              ("content", JStr "hi"); ("images", JArr [])]])]))
    blank
  = chatHandler sampleLocale sampleEnv streamingBackend alternating hiBody blank.
Proof.
  apply (message_extras_dropped sampleLocale sampleEnv streamingBackend
           alternating blank _ _
           [JObj [("name", JStr "root"); ("role", JStr "user");
                  ("content", JStr "hi"); ("images", JArr [])]]
           [JObj [("role", JStr "user"); ("content", JStr "hi")]]);
    try reflexivity.
  constructor; [|constructor]. do 2 eexists. repeat split; reflexivity.
Defined.

(** ** The buffering header *)

(** When the backend answers, the reply's [X-Accel-Buffering] header is
    [no] for a request that asked for streaming, and otherwise whatever the
    response already had: neither the backend's headers nor the relay
    change it. *)
Theorem buffering_header
    (locale : Zod) (env : Env)
    (backend : Backend) (sock : Socket) (body : option json) (res0 : Response)
    (data : ChatRequest) (response : BackendResponse) :
  safeParse locale body = inr data →
  backend (backendCall env data) = Resolves response →
  resHeaders (reply (chatHandler locale env backend sock body res0))
    !! "x-accel-buffering"
  = if stream data then Some "no" else resHeaders res0 !! "x-accel-buffering".
Proof.
  intros Hparse Hfetch.
  destruct (chatHandler_reply locale env backend sock body res0 data response
              Hparse Hfetch) as [_ [[-> _]|[-> _]]];
    rewrite ?jsonHeaders_other by done; rewrite forwardHeaders_lookup; simpl;
    (destruct (stream data); simpl; [|done]); by rewrite lookup_insert_eq.
Qed.

Lemma buffering_header_witness :
  resHeaders (reply (chatHandler sampleLocale sampleEnv
                       (λ _, Resolves (mkBackendResponse 200
                                {[ "x-accel-buffering" := "yes" ]} None))
                       alternating
                       (Some (JObj [("messages",
                                     JArr [JObj [("role", JStr "user");
                                                 ("content", JStr "hi")]]);
                                    ("stream", JBool true)]))
                       blank))
    !! "x-accel-buffering"
  = Some "no".
Proof.
  exact (buffering_header sampleLocale sampleEnv
           (λ _, Resolves (mkBackendResponse 200
                    {[ "x-accel-buffering" := "yes" ]} None))
           alternating
           (Some (JObj [("messages",
                         JArr [JObj [("role", JStr "user");
                                     ("content", JStr "hi")]]);
                        ("stream", JBool true)]))
           blank (mkChatRequest [mkMessage user "hi"] true)
           (mkBackendResponse 200 {[ "x-accel-buffering" := "yes" ]} None)
           eq_refl eq_refl).
Defined.

(** * The key manager *)

(** ** Generated keys *)

Lemma hexDigit_hex (n : nat) : (n < 16)%nat → isHexChar (hexDigit n) = true.
Proof.
  intros Hn. do 16 (destruct n as [|n]; [reflexivity|]). lia.
Qed.

Lemma hexDigit_code (n : nat) :
  (n < 16)%nat →
  nat_of_ascii (hexDigit n) = if (n <? 10)%nat then (48 + n)%nat else (87 + n)%nat.
Proof.
  intros Hn. unfold hexDigit.
  destruct (Nat.ltb_spec n 10); apply nat_ascii_embedding; lia.
Qed.

Lemma hexDigit_inj (n m : nat) :
  (n < 16)%nat → (m < 16)%nat → hexDigit n = hexDigit m → n = m.
Proof.
  intros Hn Hm Heq. apply (f_equal nat_of_ascii) in Heq.
  rewrite !hexDigit_code in Heq by done.
  destruct (Nat.ltb_spec n 10), (Nat.ltb_spec m 10); lia.
Qed.

Lemma byte_to_nat_inj (a b : byte) : Byte.to_nat a = Byte.to_nat b → a = b.
Proof.
  intros Heq. pose proof (Byte.of_to_nat a) as Ha.
  rewrite Heq, Byte.of_to_nat in Ha. by injection Ha.
Qed.

Lemma toHex_cons (b : byte) (e : list byte) :
  toHex (b :: e)
  = String (hexDigit (Byte.to_nat b / 16))
           (String (hexDigit (Byte.to_nat b mod 16)) (toHex e)).
Proof. reflexivity. Qed.

Lemma String_eq_inv (a b : ascii) (s t : string) :
  String a s = String b t → a = b ∧ s = t.
Proof. intros H. by injection H. Qed.

Lemma toHex_inj (e1 : list byte) : ∀ e2, toHex e1 = toHex e2 → e1 = e2.
Proof.
  induction e1 as [|a e1 IH]; intros [|b e2]; rewrite ?toHex_cons;
    try discriminate; [done|].
  intros [Hhi [Hlo Hrest]%String_eq_inv]%String_eq_inv.
  pose proof (Byte.to_nat_bounded a) as Ha.
  pose proof (Byte.to_nat_bounded b) as Hb.
  apply hexDigit_inj in Hhi;
    [|apply Nat.Div0.div_lt_upper_bound; lia..].
  apply hexDigit_inj in Hlo; [|apply Nat.mod_upper_bound; lia..].
  f_equal; [|by apply IH]. apply byte_to_nat_inj.
  rewrite (Nat.div_mod_eq (Byte.to_nat a) 16), (Nat.div_mod_eq (Byte.to_nat b) 16).
  by rewrite Hhi, Hlo.
Qed.

Lemma toHex_length (e : list byte) :
  String.length (toHex e) = (2 * length e)%nat.
Proof.
  induction e as [|b e IH]; [done|].
  rewrite toHex_cons. cbn [String.length length]. lia.
Qed.

Lemma toHex_chars (e : list byte) :
  Forall (λ a, isHexChar a = true) (String.list_ascii_of_string (toHex e)).
Proof.
  induction e as [|b e IH]; [constructor|].
  rewrite toHex_cons. cbn [String.list_ascii_of_string].
  pose proof (Byte.to_nat_bounded b) as Hb.
  constructor; [|constructor; [|done]]; apply hexDigit_hex.
  - apply Nat.Div0.div_lt_upper_bound; lia.
  - apply Nat.mod_upper_bound; lia.
Qed.

(** A generated key is 64 characters long, all of them lower-case
    hexadecimal digits, and it determines the 32 random bytes it was made
    of: two draws give the same key only if they are the same bytes. *)
Theorem generated_key_format (entropy : list byte) :
  length entropy = 32%nat →
  String.length (generateApiKey entropy) = 64%nat
  ∧ Forall (λ a, isHexChar a = true)
           (String.list_ascii_of_string (generateApiKey entropy))
  ∧ ∀ entropy', generateApiKey entropy' = generateApiKey entropy →
                entropy' = entropy.
Proof.
  intros Hlen. unfold generateApiKey. split; [|split].
  - by rewrite toHex_length, Hlen.
  - apply toHex_chars.
  - intros e'. apply toHex_inj.
Qed.

Lemma generated_key_format_witness :
  length sampleEntropy = 32%nat
  ∧ String.length (generateApiKey sampleEntropy) = 64%nat.
Proof.
  split; [reflexivity|].
  apply (generated_key_format sampleEntropy). reflexivity.
Defined.

Example generated_key_digits :
  generateApiKey [x00; x0f; xa0; xff] = "000fa0ff".
Proof. reflexivity. Qed.

(** ** Keys through their life *)

Lemma prisma_eta (db : Prisma) :
  mkPrisma (apiKeys db) (findUniqueFails db) (updateFails db) = db.
Proof. by destruct db. Qed.

Lemma validateApiKey_accepts (now : Z) (db : Prisma) (res0 : Response)
    (k : ApiKey) :
  uniqueKeys db →
  findUniqueFails db = false → updateFails db = false →
  k ∈ apiKeys db → isActive k = true →
  ∃ db', validateApiKey now db (Some ("Bearer " +:+ key k)) res0 = Next db'.
Proof.
  intros Huniq Hfind Hupd Hin Hactive. unfold validateApiKey.
  destruct (bearer_token (key k)) as (-> & -> & ->). simpl.
  unfold findUnique. rewrite Hfind, (find_unique _ _ k Huniq Hin eq_refl), Hactive.
  simpl. unfold update. rewrite Hupd.
  assert (existsb (λ r, id r =? id k) (apiKeys db) = true) as ->.
  { apply existsb_exists. exists k. split; [by apply list_elem_of_In|].
    apply Z.eqb_refl. }
  by eexists.
Qed.

Lemma validateApiKey_inactive (now : Z) (db : Prisma) (res0 : Response)
    (k : ApiKey) :
  uniqueKeys db → findUniqueFails db = false →
  k ∈ apiKeys db → isActive k = false →
  validateApiKey now db (Some ("Bearer " +:+ key k)) res0
  = Replied db (json_ (errorBody "Invalid or inactive API key") (status 401 res0)).
Proof.
  intros Huniq Hfind Hin Hoff. unfold validateApiKey.
  destruct (bearer_token (key k)) as (-> & -> & ->). simpl.
  unfold findUnique. by rewrite Hfind, (find_unique _ _ k Huniq Hin eq_refl), Hoff.
Qed.

Lemma validateApiKey_unknown (now : Z) (db : Prisma) (res0 : Response)
    (token : string) :
  findUniqueFails db = false →
  (∀ r, r ∈ apiKeys db → key r ≠ token) →
  validateApiKey now db (Some ("Bearer " +:+ token)) res0
  = Replied db (json_ (errorBody "Invalid or inactive API key") (status 401 res0)).
Proof.
  intros Hfind Hnone. unfold validateApiKey.
  destruct (bearer_token token) as (-> & -> & ->). simpl.
  unfold findUnique. by rewrite Hfind, (proj2 (find_none_iff _ _) Hnone).
Qed.

Lemma existsb_key_false (token : string) (rows : list ApiKey) :
  existsb (λ r, String.eqb (key r) token) rows = false
  ↔ ∀ r, r ∈ rows → key r ≠ token.
Proof.
  induction rows as [|r0 rows IH]; simpl.
  - split; [|done]. intros _ r Hr. by apply elem_of_nil in Hr.
  - rewrite orb_false_iff, IH. destruct (String.eqb_spec (key r0) token).
    + split; [by intros [? _]|]. intros H. exfalso. by apply (H r0); [left|].
    + split.
      * intros [_ H] r [->|Hr]%elem_of_cons; auto.
      * intros H. split; [done|]. intros r Hr. apply H. by right.
Qed.

Lemma setActive_keys (rowId : Z) (active : bool) (rows : list ApiKey) :
  key <$> map (λ r, if id r =? rowId then setActive active r else r) rows
  = key <$> rows.
Proof.
  induction rows as [|r rows IH]; [done|].
  cbn [map]. rewrite !fmap_cons, IH. by destruct (id r =? rowId).
Qed.

Lemma setActive_ids (rowId : Z) (active : bool) (rows : list ApiKey) :
  id <$> map (λ r, if id r =? rowId then setActive active r else r) rows
  = id <$> rows.
Proof.
  induction rows as [|r rows IH]; [done|].
  cbn [map]. rewrite !fmap_cons, IH. by destruct (id r =? rowId).
Qed.

Lemma updateActive_ok (rowId : Z) (active : bool) (db db' : Prisma) :
  updateActive rowId active db = Ok db' →
  apiKeys db' = map (λ r, if id r =? rowId then setActive active r else r)
                    (apiKeys db)
  ∧ findUniqueFails db' = findUniqueFails db
  ∧ updateFails db' = updateFails db
  ∧ updateFails db = false
  ∧ ∃ r, r ∈ apiKeys db ∧ id r = rowId.
Proof.
  unfold updateActive. destruct (updateFails db) eqn:Hu; [done|].
  destruct (existsb _ _) eqn:Hex; [|done]. intros [= <-]. simpl.
  repeat split; try done.
  apply existsb_exists in Hex as (r & Hin & Heq).
  exists r. split; [by apply list_elem_of_In|by apply Z.eqb_eq].
Qed.

Lemma delete_ok (fails : bool) (rowId : Z) (db db' : Prisma) :
  delete fails rowId db = Ok db' →
  apiKeys db' = List.filter (λ r, negb (id r =? rowId)) (apiKeys db)
  ∧ findUniqueFails db' = findUniqueFails db
  ∧ updateFails db' = updateFails db.
Proof.
  unfold delete. destruct fails; [done|].
  destruct (existsb _ _); [|done]. by intros [= <-].
Qed.

Lemma filter_sublist (f : ApiKey → bool) (rows : list ApiKey) :
  List.filter f rows `sublist_of` rows.
Proof.
  induction rows as [|r rows IH]; simpl; [done|].
  destruct (f r); by constructor.
Qed.

(** [createKey] succeeds exactly when the store takes the write and the
    generated key is not yet in the table. It then appends one row and
    changes no other: the row is active, never used, carries the generated
    key and the description (or "No description" when none or an empty one
    was given); keys that were unique stay unique. *)
Theorem createKey_effect (fails : bool) (entropy : list byte) (rowId now : Z)
    (desc : option string) (db : Prisma) :
  match createKey fails entropy rowId now desc db with
  | Ok (db', k) =>
      fails = false
      ∧ (∀ r, r ∈ apiKeys db → key r ≠ generateApiKey entropy)
      ∧ apiKeys db' = apiKeys db ++ [k]
      ∧ k = mkApiKey rowId (generateApiKey entropy)
                     (Some (configured desc "No description")) true now None
      ∧ (uniqueKeys db → uniqueKeys db')
  | Throw _ =>
      fails = true ∨ ∃ r, r ∈ apiKeys db ∧ key r = generateApiKey entropy
  end.
Proof.
  unfold createKey, create. destruct fails; [by left|].
  destruct (existsb _ _) eqn:Hex.
  - right. apply existsb_exists in Hex as (r & Hin & Heq).
    exists r. split; [by apply list_elem_of_In|by apply String.eqb_eq].
  - pose proof (proj1 (existsb_key_false _ _) Hex) as Hnew. simpl.
    rewrite orElse_configured.
    repeat split; try done.
    unfold uniqueKeys. simpl. rewrite fmap_app. intros Huniq.
    apply NoDup_app. split; [done|]. split; [|apply NoDup_singleton].
    intros x (r & -> & Hr)%list_elem_of_fmap Hx.
    apply list_elem_of_singleton in Hx. by apply (Hnew r).
Qed.

(** A key that [createKey] has just added to a working store with unique
    keys authenticates: a request bearing it passes the middleware and
    reaches the handler. *)
Theorem created_key_authenticates
    (locale : Zod) (env : Env)
    (backend : Backend) (sock : Socket) (res0 : Response)
    (fails : bool) (entropy : list byte) (rowId created now : Z)
    (desc : option string) (db db' : Prisma) (k : ApiKey) (req : Request) :
  uniqueKeys db →
  findUniqueFails db = false → updateFails db = false →
  createKey fails entropy rowId created desc db = Ok (db', k) →
  authorization req = Some ("Bearer " +:+ generateApiKey entropy) →
  ∃ db'', postChat locale now env backend sock db' req res0
          = (db'', chatHandler locale env backend sock (reqJson req) res0).
Proof.
  intros Huniq Hfind Hupd Hcreate Hauth.
  unfold createKey, create in Hcreate. destruct fails; [done|].
  destruct (existsb _ _) eqn:Hex0; [done|]. injection Hcreate as <- <-.
  pose proof (proj1 (existsb_key_false _ _) Hex0) as Hex.
  set (k := mkApiKey rowId _ _ true created None) in *.
  set (db' := mkPrisma _ _ _) in *.
  assert (uniqueKeys db') as Huniq'.
  { unfold uniqueKeys. simpl. rewrite fmap_app.
    apply NoDup_app. split; [done|]. split; [|apply NoDup_singleton].
    intros x (r & -> & Hr)%list_elem_of_fmap Hx.
    apply list_elem_of_singleton in Hx. by apply (Hex r). }
  destruct (validateApiKey_accepts now db' res0 k Huniq' Hfind Hupd) as [db'' Hv].
  { simpl. apply elem_of_app. right. by apply list_elem_of_singleton. }
  { done. }
  exists db''. unfold postChat. rewrite Hauth.
  change (generateApiKey entropy) with (key k). by rewrite Hv.
Qed.

Lemma created_key_authenticates_witness :
  ∃ db'', postChat sampleLocale 2000 sampleEnv streamingBackend alternating
                   (mkPrisma [sampleKey true;
                              mkApiKey 7 (generateApiKey sampleEntropy)
                                       (Some "No description") true 1000 None]
                             false false)
                   (mkRequest (Some ("Bearer " +:+ generateApiKey sampleEntropy))
                              hiBody)
                   blank
          = (db'', chatHandler sampleLocale sampleEnv streamingBackend
                               alternating hiBody blank).
Proof.
  apply (created_key_authenticates sampleLocale sampleEnv streamingBackend
           alternating blank false sampleEntropy 7 1000 2000 None
           (sampleStore true false) _
           (mkApiKey 7 (generateApiKey sampleEntropy) (Some "No description")
                     true 1000 None));
    try reflexivity.
  unfold uniqueKeys. simpl. apply NoDup_singleton.
Defined.

Lemma createKey_effect_witness :
  uniqueKeys (mkPrisma [sampleKey true;
                        mkApiKey 7 (generateApiKey sampleEntropy)
                                 (Some "No description") true 1000 None]
                       false false).
Proof.
  pose proof (createKey_effect false sampleEntropy 7 1000 None
                (sampleStore true false)) as H.
  apply (proj2 (proj2 (proj2 (proj2 H)))).
  unfold uniqueKeys. simpl. apply NoDup_singleton.
Defined.

(** Once [deactivateKey] has succeeded on the id of a row, a request
    bearing that row's key is answered 401 "Invalid or inactive API key"
    and makes no backend call (keys unique, the store answering). *)
Theorem deactivated_key_is_rejected
    (locale : Zod) (now : Z) (env : Env)
    (backend : Backend) (sock : Socket) (res0 : Response)
    (db db' : Prisma) (k : ApiKey) (req : Request) :
  uniqueKeys db → findUniqueFails db = false →
  k ∈ apiKeys db →
  deactivateKey (id k) db = Ok db' →
  authorization req = Some ("Bearer " +:+ key k) →
  postChat locale now env backend sock db' req res0
  = (db', mkOutcome [] (Settled (session
            (json_ (errorBody "Invalid or inactive API key") (status 401 res0))))).
Proof.
  intros Huniq Hfind Hin Hoff Hauth.
  apply updateActive_ok in Hoff as (Hrows & Hf & _).
  unfold postChat. rewrite Hauth.
  change (key k) with (key (setActive false k)).
  rewrite validateApiKey_inactive; try done.
  - unfold uniqueKeys. by rewrite Hrows, setActive_keys.
  - congruence.
  - rewrite Hrows. apply list_elem_of_fmap. exists k. by rewrite Z.eqb_refl.
Qed.

Lemma deactivated_key_is_rejected_witness :
  statusCode (reply (postChat sampleLocale 1000 sampleEnv streamingBackend
                       alternating (sampleStore false false) bearer blank).2)
  = 401.
Proof.
  rewrite (deactivated_key_is_rejected sampleLocale 1000 sampleEnv
             streamingBackend alternating blank (sampleStore true false)
             (sampleStore false false) (sampleKey true) bearer).
  - reflexivity.
  - unfold uniqueKeys. simpl. apply NoDup_singleton.
  - reflexivity.
  - simpl. apply list_elem_of_singleton. reflexivity.
  - reflexivity.
  - reflexivity.
Defined.

(** Deactivating and then activating a key whose rows were active gives the
    table back exactly as it was, so the key authenticates again as
    before. *)
Theorem reactivation_restores (keyId : Z) (db db1 : Prisma) :
  (∀ r, r ∈ apiKeys db → id r = keyId → isActive r = true) →
  deactivateKey keyId db = Ok db1 →
  activateKey keyId db1 = Ok db.
Proof.
  intros Hactive Hoff.
  apply updateActive_ok in Hoff as (Hrows & Hf & Hu & Hup & r0 & Hin0 & Hid0).
  unfold activateKey, updateActive. rewrite Hu, Hup.
  assert (existsb (λ r, id r =? keyId) (apiKeys db1) = true) as ->.
  { apply existsb_exists. exists (setActive false r0). split.
    - apply list_elem_of_In. rewrite Hrows. apply list_elem_of_fmap.
      exists r0. subst keyId. by rewrite Z.eqb_refl.
    - simpl. by apply Z.eqb_eq. }
  rewrite Hf, Hrows, <- Hup. f_equal. rewrite <- (prisma_eta db) at 4. f_equal.
  rewrite map_map. rewrite <- (map_id (apiKeys db)) at 2.
  apply map_ext_in. intros r Hr%list_elem_of_In.
  destruct (id r =? keyId) eqn:Heq; simpl; rewrite Heq; [|done].
  apply Z.eqb_eq in Heq. specialize (Hactive r Hr Heq).
  destruct r. simpl in *. by subst.
Qed.

Lemma reactivation_restores_witness :
  activateKey 1 (sampleStore false false) = Ok (sampleStore true false).
Proof.
  apply (reactivation_restores 1 (sampleStore true false)); [|reflexivity].
  intros r ->%list_elem_of_singleton _. reflexivity.
Defined.

(** Once [deleteKey] has succeeded on the id of a row, a request bearing
    that row's key is answered 401 and makes no backend call; the rows with
    another id are all still there, in their order, and none was added. *)
Theorem deleted_key_is_rejected
    (locale : Zod) (now : Z) (env : Env)
    (backend : Backend) (sock : Socket) (res0 : Response) (fails : bool)
    (db db' : Prisma) (k : ApiKey) (req : Request) :
  uniqueKeys db → findUniqueFails db = false →
  k ∈ apiKeys db →
  deleteKey fails (id k) db = Ok db' →
  authorization req = Some ("Bearer " +:+ key k) →
  postChat locale now env backend sock db' req res0
  = (db', mkOutcome [] (Settled (session
            (json_ (errorBody "Invalid or inactive API key") (status 401 res0)))))
  ∧ apiKeys db' = List.filter (λ r, negb (id r =? id k)) (apiKeys db).
Proof.
  intros Huniq Hfind Hin Hdel Hauth.
  apply delete_ok in Hdel as (Hrows & Hf & _). split; [|done].
  unfold postChat. rewrite Hauth.
  rewrite (validateApiKey_unknown now db' res0 (key k)); [done|congruence|].
  intros r Hr Hkey. rewrite Hrows in Hr.
  apply list_elem_of_In, filter_In in Hr as [Hr Hid].
  apply list_elem_of_In in Hr.
  pose proof (find_unique (key k) _ r Huniq Hr Hkey) as H1.
  pose proof (find_unique (key k) _ k Huniq Hin eq_refl) as H2.
  rewrite H1 in H2. injection H2 as ->. by rewrite Z.eqb_refl in Hid.
Qed.

Lemma deleted_key_is_rejected_witness :
  statusCode (reply (postChat sampleLocale 1000 sampleEnv streamingBackend
                       alternating (mkPrisma [] false false) bearer blank).2)
  = 401.
Proof.
  pose proof (deleted_key_is_rejected sampleLocale 1000 sampleEnv
                streamingBackend alternating blank false (sampleStore true false)
                (mkPrisma [] false false) (sampleKey true) bearer) as H.
  destruct H as [-> _]; try reflexivity.
  - unfold uniqueKeys. simpl. apply NoDup_singleton.
  - simpl. apply list_elem_of_singleton. reflexivity.
Defined.

(** Activating, deactivating and deleting keep the table well formed: keys
    that were unique stay unique, ids that were unique stay unique, and
    every row afterwards is a row from before with the same id, key,
    description, creation time and last-used timestamp. *)
Theorem management_keeps_table (fails : bool) (keyId : Z) (db db' : Prisma) :
  deactivateKey keyId db = Ok db'
  ∨ activateKey keyId db = Ok db'
  ∨ deleteKey fails keyId db = Ok db' →
  (uniqueKeys db → uniqueKeys db')
  ∧ (uniqueIds db → uniqueIds db')
  ∧ ∀ r', r' ∈ apiKeys db' →
          ∃ r, r ∈ apiKeys db ∧ id r' = id r ∧ key r' = key r
               ∧ description r' = description r
               ∧ createdAt r' = createdAt r ∧ lastUsedAt r' = lastUsedAt r.
Proof.
  assert (∀ active, updateActive keyId active db = Ok db' →
            (uniqueKeys db → uniqueKeys db')
            ∧ (uniqueIds db → uniqueIds db')
            ∧ ∀ r', r' ∈ apiKeys db' →
                ∃ r, r ∈ apiKeys db ∧ id r' = id r ∧ key r' = key r
                     ∧ description r' = description r
                     ∧ createdAt r' = createdAt r ∧ lastUsedAt r' = lastUsedAt r)
    as Hupdate.
  { intros active (Hrows & _)%updateActive_ok.
    unfold uniqueKeys, uniqueIds. rewrite Hrows, setActive_keys, setActive_ids.
    repeat split; try done.
    intros r' (r & -> & Hr)%list_elem_of_fmap. exists r.
    by destruct (id r =? keyId). }
  intros [Hop|[Hop|Hop]]; [by apply (Hupdate false)|by apply (Hupdate true)|].
  apply delete_ok in Hop as (Hrows & _).
  pose proof (filter_sublist (λ r, negb (id r =? keyId)) (apiKeys db)) as Hsub.
  rewrite <- Hrows in Hsub. repeat split.
  - unfold uniqueKeys. intros H.
    by apply (sublist_NoDup _ (key <$> apiKeys db) H), fmap_sublist.
  - unfold uniqueIds. intros H.
    by apply (sublist_NoDup _ (id <$> apiKeys db) H), fmap_sublist.
  - intros r' Hr'. exists r'. repeat split; try done.
    rewrite Hrows in Hr'. by apply list_elem_of_In, filter_In in Hr' as [?%list_elem_of_In _].
Qed.

Lemma management_keeps_table_witness :
  uniqueKeys (sampleStore false false).
Proof.
  apply (management_keeps_table false 1 (sampleStore true false)
           (sampleStore false false)).
  - left. reflexivity.
  - unfold uniqueKeys. simpl. apply NoDup_singleton.
Defined.

(** ** The command line *)

Section CliFacts.

Variable parseInt : string → option Z.
Variable findMany : Prisma → Try (list ApiKey).
Variable createFails deleteFails : bool.
Variable entropy : list byte.
Variable rowId now : Z.

Lemma withKeyId_cases (arg : option string) (op : Z → Prisma → Try Prisma)
    (done : Z → Line) (db : Prisma) :
  (truthy arg = false ∧ withKeyId parseInt arg op done db = Exited 1 [ProvideKeyId])
  ∨ (∃ e, withKeyId parseInt arg op done db = Thrown e)
  ∨ (∃ a keyId db', arg = Some a ∧ parseInt a = Some keyId
                    ∧ op keyId db = Ok db'
                    ∧ withKeyId parseInt arg op done db
                      = Completed db' [done keyId]).
Proof.
  unfold withKeyId. destruct arg as [a|]; [|by left].
  destruct (truthy (Some a)) eqn:Ht; simpl; [|by left].
  right. destruct (parseInt a) as [keyId|] eqn:Hp; [|left; by eexists].
  destruct (op keyId db) as [db'|e] eqn:Hop; [|left; by eexists].
  right. by exists a, keyId, db'.
Qed.

Lemma args_first (argv : list string) : drop 3 argv !! 0%nat = argv !! 3%nat.
Proof. apply (lookup_drop argv 3 0). Qed.

End CliFacts.

(** [deactivate], [activate] and [delete] without a key id (none given, or
    an empty one) print the hint and exit with code 1: the table is not
    touched and the store is not disconnected. *)
Theorem main_needs_key_id
    (parseInt : string → option Z) (findMany : Prisma → Try (list ApiKey))
    (createFails deleteFails : bool) (entropy : list byte) (rowId now : Z)
    (argv : list string) (db : Prisma) (c : string) :
  argv !! 2%nat = Some c →
  c = "deactivate" ∨ c = "activate" ∨ c = "delete" →
  truthy (argv !! 3%nat) = false →
  main parseInt findMany createFails deleteFails entropy rowId now argv db
  = mkProcess db [ProvideKeyId] 1 false.
Proof.
  intros Hc Hcmd Harg. unfold main. rewrite Hc, args_first.
  assert (∀ op done, withKeyId parseInt (argv !! 3%nat) op done db
                     = Exited 1 [ProvideKeyId]) as Hexit.
  { intros op done. unfold withKeyId.
    destruct (argv !! 3%nat) as [a|]; [|done]. by rewrite Harg. }
  unfold dispatch. destruct Hcmd as [-> | [-> | ->]]; simpl; by rewrite Hexit.
Qed.

Lemma main_needs_key_id_witness :
  main sampleParseInt sampleFindMany false false sampleEntropy 7 1000
       ["node"; "manageKeys.ts"; "delete"] (sampleStore true false)
  = mkProcess (sampleStore true false) [ProvideKeyId] 1 false.
Proof.
  apply (main_needs_key_id sampleParseInt sampleFindMany false false
           sampleEntropy 7 1000 _ _ "delete"); [reflexivity| |reflexivity].
  right. right. reflexivity.
Defined.

(** A run of the tool ends in one of two ways: with exit code 0 and the
    store disconnected, or with exit code 1, the store not disconnected and
    the table exactly as it was before the run. *)
Theorem failed_run_leaves_table
    (parseInt : string → option Z) (findMany : Prisma → Try (list ApiKey))
    (createFails deleteFails : bool) (entropy : list byte) (rowId now : Z)
    (argv : list string) (db : Prisma) :
  let p := main parseInt findMany createFails deleteFails entropy rowId now
                argv db in
  (exitCode p = 0 ∧ disconnected p = true)
  ∨ (exitCode p = 1 ∧ disconnected p = false ∧ store p = db).
Proof.
  unfold main. rewrite args_first.
  assert (∀ op done,
            match withKeyId parseInt (argv !! 3%nat) op done db with
            | Exited code _ => code = 1
            | _ => True
            end) as Hcode.
  { intros op done.
    destruct (withKeyId_cases parseInt (argv !! 3%nat) op done db)
      as [[_ ->]|[[e ->]|(a & keyId & db' & _ & _ & _ & ->)]]; done. }
  unfold dispatch. destruct (argv !! 2%nat) as [c|]; [|by left].
  destruct (String.eqb c "create").
  { destruct (createKey _ _ _ _ _ _) as [[db' k]|e]; [by left|by right]. }
  destruct (String.eqb c "list").
  { destruct (listKeys findMany db); [by left|by right]. }
  destruct (String.eqb c "deactivate").
  { pose proof (Hcode deactivateKey KeyDeactivated) as H.
    destruct (withKeyId _ _ _ _ _); [by left|by right|right; by subst]. }
  destruct (String.eqb c "activate").
  { pose proof (Hcode activateKey KeyActivated) as H.
    destruct (withKeyId _ _ _ _ _); [by left|by right|right; by subst]. }
  destruct (String.eqb c "delete"); [|by left].
  pose proof (Hcode (deleteKey deleteFails) KeyDeleted) as H.
  destruct (withKeyId _ _ _ _ _); [by left|by right|right; by subst].
Qed.

Lemma failed_run_leaves_table_witness :
  let p := main sampleParseInt sampleFindMany false false sampleEntropy 7 1000
                ["node"; "manageKeys.ts"; "deactivate"; "7"]
                (sampleStore true false) in
  exitCode p = 1 ∧ disconnected p = false ∧ store p = sampleStore true false.
Proof.
  destruct (failed_run_leaves_table sampleParseInt sampleFindMany false false
              sampleEntropy 7 1000
              ["node"; "manageKeys.ts"; "deactivate"; "7"]
              (sampleStore true false)) as [[H _]|H].
  - discriminate H.
  - exact H.
Defined.

(** Only [create], [deactivate], [activate] and [delete] write: with any
    other command, [list] and none at all included, the table after the run
    is the table before it. *)
Theorem only_four_commands_write
    (parseInt : string → option Z) (findMany : Prisma → Try (list ApiKey))
    (createFails deleteFails : bool) (entropy : list byte) (rowId now : Z)
    (argv : list string) (db : Prisma) :
  (∀ c, argv !! 2%nat = Some c →
        c ≠ "create" ∧ c ≠ "deactivate" ∧ c ≠ "activate" ∧ c ≠ "delete") →
  store (main parseInt findMany createFails deleteFails entropy rowId now
              argv db) = db.
Proof.
  intros Hcmd. unfold main, dispatch.
  destruct (argv !! 2%nat) as [c|]; [|done].
  destruct (Hcmd c eq_refl) as (H1 & H2 & H3 & H4).
  apply String.eqb_neq in H1, H2, H3, H4. rewrite H1, H2, H3, H4.
  destruct (String.eqb c "list"); [|done].
  by destruct (listKeys findMany db).
Qed.

Lemma only_four_commands_write_witness :
  store (main sampleParseInt sampleFindMany false false sampleEntropy 7 1000
              ["node"; "manageKeys.ts"; "list"] (sampleStore true false))
  = sampleStore true false.
Proof.
  apply (only_four_commands_write sampleParseInt sampleFindMany false false
           sampleEntropy 7 1000).
  intros c [= <-]. repeat split; discriminate.
Defined.
